(** * Kinetophone: a shallow embedding of [src/index.js]

    The engine drives one clock and, per channel, keeps the list of
    timings whose interval contains the time of the last resolution,
    emitting [enter] / [exit] events when that list changes.

    Conventions of the embedding.
    - Times are integers ([Z]); JavaScript [undefined] is [None].
    - A JavaScript object used as a map is an insertion-ordered
      association list ([JsObj]): [Object.keys] order decides the order of
      the emitted events.
    - Objects compared by reference (the payload stored in the interval
      tree, searched with [indexOf]) carry an identity [oid] taken from a
      counter of the state.
    - The three collaborators (event emitter, clock, interval tree) are
      external packages.  Every call the engine makes into one of them is
      appended to the [log] of the state, in program order; listeners are
      not run (no re-entrancy).
    - A [throw] leaves the state as mutated so far: fallible operations
      return a completion together with the state. *)

From Stdlib Require Import ZArith List String Bool Lia QArith Permutation Sorted.
Import ListNotations.
Close Scope Q_scope.
Local Open Scope string_scope.
Local Open Scope Z_scope.

Set Implicit Arguments.

(** ** JavaScript objects used as maps *)

Module JsObj.

Definition t (V : Type) : Type := list (string * V).

(** [o[k]] *)
Fixpoint get {V} (o : t V) (k : string) : option V :=
  match o with
  | [] => None
  | (k', v) :: o' => if String.eqb k' k then Some v else get o' k
  end.

(** [o[k] = v]: an existing key keeps its position, a new key goes last. *)
Fixpoint set {V} (o : t V) (k : string) (v : V) : t V :=
  match o with
  | [] => [(k, v)]
  | (k', v') :: o' =>
      if String.eqb k' k then (k', v) :: o' else (k', v') :: set o' k v
  end.

(** [delete o[k]] *)
Fixpoint delete {V} (o : t V) (k : string) : t V :=
  match o with
  | [] => []
  | (k', v') :: o' =>
      if String.eqb k' k then o' else (k', v') :: delete o' k
  end.

(** [Object.keys(o)] *)
Definition keys {V} (o : t V) : list string := map fst o.

End JsObj.

(** ** Data *)

Definition Data := string.

(** A timing as the caller declares it: [{start, end?, duration?, data?}]. *)
Record Timing : Type := mkTiming {
  t_start : Z;
  t_end : option Z;
  t_duration : option Z;
  t_data : option Data
}.

(** The object [{start, end, data: timing}] built by [_addTimingToTree];
    [oid] is its identity. *)
Record Payload : Type := mkPayload {
  oid : nat;
  p_start : Z;
  p_end : Z;
  p_data : Timing
}.

(** The array [[start, end, payload]] handed to [tree.add]; a search
    result [r] gives it back as [r.data], so [r.data[2]] is [i_payload]. *)
Record Interval : Type := mkInterval {
  i_lo : Z;
  i_hi : Z;
  i_payload : Payload
}.

(** What listeners and query callers receive.  [pr_data = None] is an
    object without a [data] key, [Some None] one whose [data] key holds
    [undefined]. *)
Record Projection : Type := mkProjection {
  pr_name : string;
  pr_start : Z;
  pr_data : option (option Data);
  pr_end : option Z;
  pr_duration : option Z
}.

Inductive JsError : Type :=
| MissingTotalDuration            (* "You must specify a total duration" *)
| InvalidDuration                 (* "You must specify a non-null total duration" *)
| DuplicateChannel (name : string)  (* "Duplicate channel name '...'" *)
| UnknownChannel (name : string)    (* "No such channel '...'" *)
| ConflictingBounds               (* "Cannot specify both 'end' and 'duration'" *)
| TypeError.                      (* property access on [undefined] *)

Inductive Completion (A : Type) : Type :=
| Return (a : A)
| Throw (e : JsError).
Arguments Return {A} a.
Arguments Throw {A} e.

(** An argument that may be a number, [null] or [undefined] (also: not
    passed). *)
Inductive JsArg : Type :=
| Undefined
| Null
| Num (z : Z).

(** ** The interval tree *)

(** Modelled from the spec: the [interval-tree] package is not part of the
    repository.  The Range Index contract of the specification is: insert
    an interval with its payload; query a point, giving the entries that
    overlap it; query a closed range, giving the entries that overlap it.
    The entries are kept in insertion order and intervals overlap as
    closed intervals.  [center] is the constructor argument. *)
Record IntervalTree : Type := mkTree {
  center : Q;
  intervals : list Interval
}.

Definition IntervalTree_new (c : Q) : IntervalTree :=
  {| center := c; intervals := [] |}.

Definition tree_add (tree : IntervalTree) (iv : Interval) : IntervalTree :=
  {| center := center tree; intervals := intervals tree ++ [iv] |}.

Definition search_point (tree : IntervalTree) (p : Z) : list Interval :=
  filter (fun iv => (i_lo iv <=? p) && (p <=? i_hi iv)) (intervals tree).

Definition search_range (tree : IntervalTree) (a b : Z) : list Interval :=
  filter (fun iv => (i_lo iv <=? b) && (a <=? i_hi iv)) (intervals tree).

(** ** The clock *)

(** Modelled from the spec: the [timex] package is not part of the
    repository.  The Clock contract of the specification: it can be
    started, paused and set to a time, has a readable [currentTime], and
    calls the registered callback with the elapsed time while it runs and
    not while it is paused. *)
Record Timex : Type := mkTimex {
  currentTime_ : Z;
  running : bool;
  rate : Q
}.

(** ** Calls into the collaborators *)

Inductive Arg : Type :=
| ANone
| ATime (time : Z)
| ATiming (p : Projection).

Inductive Query : Type :=
| QPoint (p : Z)            (* [tree.search(p)] *)
| QRange (a b : Z).         (* [tree.search(a, b)] *)

Inductive Effect : Type :=
| Emit (event : string) (arg : Arg)       (* [this.emit(event, arg)] *)
| TimerStart                              (* [this._timer.start()] *)
| TimerPause                              (* [this._timer.pause()] *)
| TimerSet (time : Z)                     (* [this._timer.set(time)] *)
| TimerSetRate (r : Q)                    (* [this._timer.setRate(r)] *)
| TreeSearch (channel : string) (q : Query).

(** ** Engine state *)

Record Channel : Type := mkChannel {
  name : string;
  timings : list Timing;
  tree : IntervalTree
}.

(** The argument of [addChannel]: [{name, timings?}]. *)
Record ChannelDecl : Type := mkChannelDecl {
  c_name : string;
  c_timings : option (list Timing)
}.

Record Kinetophone : Type := mkKinetophone {
  _channels : JsObj.t Channel;
  _activeTimingsPerChannel : JsObj.t (list Payload);
  _totalDuration : Z;
  _playing : bool;
  _timer : Timex;
  _lastTimerCallback : option Z;       (* [null] is [None] *)
  _tickResolution : Z;
  next_oid : nat;                      (* identity of the next object *)
  log : list Effect                    (* calls made so far, oldest first *)
}.

Definition set_channels (v : JsObj.t Channel) (k : Kinetophone) : Kinetophone :=
  mkKinetophone v (_activeTimingsPerChannel k) (_totalDuration k) (_playing k)
    (_timer k) (_lastTimerCallback k) (_tickResolution k) (next_oid k) (log k).

Definition set_active (v : JsObj.t (list Payload)) (k : Kinetophone) : Kinetophone :=
  mkKinetophone (_channels k) v (_totalDuration k) (_playing k)
    (_timer k) (_lastTimerCallback k) (_tickResolution k) (next_oid k) (log k).

Definition set_totalDuration (v : Z) (k : Kinetophone) : Kinetophone :=
  mkKinetophone (_channels k) (_activeTimingsPerChannel k) v (_playing k)
    (_timer k) (_lastTimerCallback k) (_tickResolution k) (next_oid k) (log k).

Definition set_playing (v : bool) (k : Kinetophone) : Kinetophone :=
  mkKinetophone (_channels k) (_activeTimingsPerChannel k) (_totalDuration k) v
    (_timer k) (_lastTimerCallback k) (_tickResolution k) (next_oid k) (log k).

Definition set_timer (v : Timex) (k : Kinetophone) : Kinetophone :=
  mkKinetophone (_channels k) (_activeTimingsPerChannel k) (_totalDuration k)
    (_playing k) v (_lastTimerCallback k) (_tickResolution k) (next_oid k) (log k).

Definition set_lastTimerCallback (v : option Z) (k : Kinetophone) : Kinetophone :=
  mkKinetophone (_channels k) (_activeTimingsPerChannel k) (_totalDuration k)
    (_playing k) (_timer k) v (_tickResolution k) (next_oid k) (log k).

Definition set_next_oid (v : nat) (k : Kinetophone) : Kinetophone :=
  mkKinetophone (_channels k) (_activeTimingsPerChannel k) (_totalDuration k)
    (_playing k) (_timer k) (_lastTimerCallback k) (_tickResolution k) v (log k).

Definition record (e : Effect) (k : Kinetophone) : Kinetophone :=
  mkKinetophone (_channels k) (_activeTimingsPerChannel k) (_totalDuration k)
    (_playing k) (_timer k) (_lastTimerCallback k) (_tickResolution k)
    (next_oid k) (log k ++ [e]).

(** [this.emit(event, arg)] *)
Definition emit (event : string) (arg : Arg) (k : Kinetophone) : Kinetophone :=
  record (Emit event arg) k.

(** [this._timer.set(time)] *)
Definition timer_set (time : Z) (k : Kinetophone) : Kinetophone :=
  record (TimerSet time)
    (set_timer (mkTimex time (running (_timer k)) (rate (_timer k))) k).

(** [this._timer.pause()] *)
Definition timer_pause (k : Kinetophone) : Kinetophone :=
  record TimerPause
    (set_timer (mkTimex (currentTime_ (_timer k)) false (rate (_timer k))) k).

(** [this._timer.start()] *)
Definition timer_start (k : Kinetophone) : Kinetophone :=
  record TimerStart
    (set_timer (mkTimex (currentTime_ (_timer k)) true (rate (_timer k))) k).

(** [this._timer.setRate(r)] *)
Definition timer_setRate (r : Q) (k : Kinetophone) : Kinetophone :=
  record (TimerSetRate r)
    (set_timer (mkTimex (currentTime_ (_timer k)) (running (_timer k)) r) k).

(** ** Fallible, stateful code *)

Definition M (A : Type) : Type := Kinetophone -> Completion A * Kinetophone.

Definition ret {A} (a : A) : M A := fun k => (Return a, k).

Definition throw {A} (e : JsError) : M A := fun k => (Throw e, k).

Definition bind {A B} (m : M A) (f : A -> M B) : M B :=
  fun k =>
    match m k with
    | (Return a, k') => f a k'
    | (Throw e, k') => (Throw e, k')
    end.

Notation "x <- m ;; f" := (bind m (fun x => f))
  (at level 61, m at next level, right associativity).
Notation "m ;;; f" := (bind m (fun _ => f))
  (at level 61, right associativity).

(** [l.forEach(f)] where [f] may throw: the first throw ends the loop. *)
Fixpoint forEachM {A} (f : A -> M unit) (l : list A) : M unit :=
  match l with
  | [] => ret tt
  | a :: l' => f a ;;; forEachM f l'
  end.

(** ** Channel store *)

(** [tree.add(iv)] on the tree object of a channel.  A tree is reachable
    only through its channel record, so the channel name stands for the
    reference to the tree. *)
Definition tree_add_in (ref : string) (iv : Interval) (k : Kinetophone)
  : Kinetophone :=
  match JsObj.get (_channels k) ref with
  | Some ch =>
      set_channels
        (JsObj.set (_channels k) ref
           (mkChannel (name ch) (timings ch) (tree_add (tree ch) iv)))
        k
  | None => k
  end.

(** [Kinetophone.prototype._addTimingToTree] (src/index.js 65-78) *)
Definition _addTimingToTree (tree : string) (timing : Timing) : M unit :=
  fun k =>
    let end_ :=
      match t_end timing, t_duration timing with
      | None, None => Return (t_start timing + 1)
      | None, Some duration => Return (t_start timing + duration)
      | Some e, None => Return e
      | Some _, Some _ => Throw ConflictingBounds
      end in
    match end_ with
    | Throw e => (Throw e, k)
    | Return end_ =>
        let payload := mkPayload (next_oid k) (t_start timing) end_ timing in
        (Return tt,
         tree_add_in tree (mkInterval (t_start timing) end_ payload)
           (set_next_oid (S (next_oid k)) k))
    end.

(** [Kinetophone.prototype.addChannel] (src/index.js 32-52) *)
Definition addChannel (channel : ChannelDecl) : M unit :=
  fun k =>
    let name := c_name channel in
    match JsObj.get (_channels k) name with
    | Some _ => (Throw (DuplicateChannel name), k)
    | None =>
        let tree := IntervalTree_new (_totalDuration k # 2) in
        let timings := match c_timings channel with Some l => l | None => [] end in
        let k1 := set_channels
                    (JsObj.set (_channels k) name (mkChannel name timings tree)) k in
        let k2 := set_active (JsObj.set (_activeTimingsPerChannel k1) name []) k1 in
        forEachM (_addTimingToTree name) timings k2
    end.

(** [Kinetophone.prototype.addTiming] (src/index.js 54-63) *)
Definition addTiming (channelName : string) (timing : Timing) : M unit :=
  fun k =>
    match JsObj.get (_channels k) channelName with
    | None => (Throw (UnknownChannel channelName), k)
    | Some _ => _addTimingToTree channelName timing k
    end.

(** [Kinetophone.prototype.totalDuration] (src/index.js 80-98); the
    setter returns [undefined]. *)
Definition totalDuration (duration : JsArg) : M (option Z) :=
  fun k =>
    match duration with
    | Undefined => (Return (Some (_totalDuration k)), k)
    | Null => (Throw InvalidDuration, k)
    | Num duration =>
        let k1 := set_totalDuration duration k in
        (forEachM
           (fun channelName k' =>
              match JsObj.get (_channels k') channelName with
              | None => (Throw TypeError, k')
              | Some channel =>
                  addChannel
                    (mkChannelDecl (name channel) (Some (timings channel)))
                    (set_channels (JsObj.delete (_channels k') channelName) k')
              end)
           (JsObj.keys (_channels k1)) ;;;
         ret None) k1
    end.

(** ** Resolver *)

Definition inside (currentTime : Z) (timing : Payload) : bool :=
  (p_start timing <=? currentTime) && (currentTime <? p_end timing).

(** [timingFromRawData] (src/index.js 262-268) *)
Definition timingFromRawData (channel : string) (timing : Payload) : Projection :=
  mkProjection channel (t_start (p_data timing))
    (match t_data (p_data timing) with Some d => Some (Some d) | None => None end)
    (t_end (p_data timing))
    (t_duration (p_data timing)).

(** The object built in the exit pass (src/index.js 191-194): its [data]
    key is always present. *)
Definition exitProjection (channel : string) (timing : Payload) : Projection :=
  mkProjection channel (p_start timing)
    (Some (t_data (p_data timing)))
    (t_end (p_data timing))
    (t_duration (p_data timing)).

(** [l.indexOf(x)] on payload objects: comparison by reference. *)
Fixpoint indexOf_from (i : Z) (l : list Payload) (x : Payload) : Z :=
  match l with
  | [] => -1
  | y :: l' => if Nat.eqb (oid y) (oid x) then i else indexOf_from (i + 1) l' x
  end.

Definition indexOf (l : list Payload) (x : Payload) : Z := indexOf_from 0 l x.

(** [l.splice(idx, 1)] *)
Fixpoint splice1 {A} (idx : nat) (l : list A) : list A :=
  match l, idx with
  | [], _ => []
  | _ :: l', O => l'
  | a :: l', S i => a :: splice1 i l'
  end.

(** The array held in [_activeTimingsPerChannel[channel]]. *)
Definition timingsRef (channel : string) (k : Kinetophone) : list Payload :=
  match JsObj.get (_activeTimingsPerChannel k) channel with
  | Some l => l
  | None => []
  end.

(** The first [forEach] of [_resolveTimingsForChannel] (src/index.js
    189-200), from index [i] on: emits the exits and collects the indices
    to remove, highest first. *)
Fixpoint exitPass (channel : string) (currentTime : Z) (i : nat)
    (l : list Payload) (timingsToRemove : list nat) (k : Kinetophone)
  : list nat * Kinetophone :=
  match l with
  | [] => (timingsToRemove, k)
  | timing :: l' =>
      if (currentTime <? p_start timing) || (currentTime >=? p_end timing) then
        let toEmit := exitProjection channel timing in
        exitPass channel currentTime (S i) l' (i :: timingsToRemove)
          (emit ("exit:" ++ channel) (ATiming toEmit)
             (emit "exit" (ATiming toEmit) k))
      else exitPass channel currentTime (S i) l' timingsToRemove k
  end.

(** The last [forEach] of [_resolveTimingsForChannel] (src/index.js
    206-214); [timingsRef] is read again at every step because [push]
    changes it. *)
Fixpoint enterPass (channel : string) (currentTime : Z)
    (timingsToAdd : list Interval) (k : Kinetophone) : Kinetophone :=
  match timingsToAdd with
  | [] => k
  | iv :: rest =>
      let timing := i_payload iv in
      if (currentTime >=? p_start timing) && (currentTime <? p_end timing)
         && (indexOf (timingsRef channel k) timing =? -1) then
        let toEmit := timingFromRawData channel timing in
        let k1 := emit ("enter:" ++ channel) (ATiming toEmit)
                    (emit "enter" (ATiming toEmit) k) in
        enterPass channel currentTime rest
          (set_active
             (JsObj.set (_activeTimingsPerChannel k1) channel
                (timingsRef channel k1 ++ [timing])%list) k1)
      else enterPass channel currentTime rest k
  end.

(** [Kinetophone.prototype._resolveTimingsForChannel] (src/index.js
    181-215).  It is only called on keys of [_channels], which all have an
    array in [_activeTimingsPerChannel]; on another name the JavaScript
    code fails on [undefined] and the embedding does nothing. *)
Definition _resolveTimingsForChannel (channel : string)
    (lastTime currentTime : Z) (k : Kinetophone) : Kinetophone :=
  match JsObj.get (_activeTimingsPerChannel k) channel,
        JsObj.get (_channels k) channel with
  | Some ref, Some ch =>
      let '(timingsToAdd, k1) :=
        if lastTime =? currentTime
        then (search_point (tree ch) currentTime,
              record (TreeSearch channel (QPoint currentTime)) k)
        else (search_range (tree ch) lastTime currentTime,
              record (TreeSearch channel (QRange lastTime currentTime)) k) in
      let '(timingsToRemove, k2) := exitPass channel currentTime 0 ref [] k1 in
      let k3 :=
        set_active
          (JsObj.set (_activeTimingsPerChannel k2) channel
             (fold_left (fun l idx => splice1 idx l) timingsToRemove ref)) k2 in
      enterPass channel currentTime timingsToAdd k3
  | _, _ => k
  end.

(** [Kinetophone.prototype._resolveTimings] (src/index.js 169-173) *)
Definition _resolveTimings (lastTime currentTime : Z) (k : Kinetophone)
  : Kinetophone :=
  fold_left (fun k' chan => _resolveTimingsForChannel chan lastTime currentTime k')
    (JsObj.keys (_channels k)) k.

(** [Kinetophone.prototype._clearAllTimingsForChannel] (src/index.js
    217-225) *)
Definition _clearAllTimingsForChannel (channel : string) (k : Kinetophone)
  : Kinetophone :=
  let k1 :=
    fold_left
      (fun k' timing =>
         let toEmit := timingFromRawData channel timing in
         emit ("exit:" ++ channel) (ATiming toEmit)
           (emit "exit" (ATiming toEmit) k'))
      (timingsRef channel k) k in
  set_active (JsObj.set (_activeTimingsPerChannel k1) channel []) k1.

(** [Kinetophone.prototype._clearAllTimings] (src/index.js 175-179) *)
Definition _clearAllTimings (k : Kinetophone) : Kinetophone :=
  fold_left (fun k' chan => _clearAllTimingsForChannel chan k')
    (JsObj.keys (_channels k)) k.

(** ** Playback and ticks *)

(** [Kinetophone.prototype.pause] (src/index.js 120-126) *)
Definition pause (k : Kinetophone) : Kinetophone :=
  if negb (_playing k) then k
  else timer_pause (emit "pause" ANone (set_playing false k)).

(** [Kinetophone.prototype.play] (src/index.js 128-140) *)
Definition play (k : Kinetophone) : Kinetophone :=
  if _playing k then k
  else
    let k1 :=
      if currentTime_ (_timer k) >=? _totalDuration k
      then _clearAllTimings (set_lastTimerCallback None (timer_set 0 k))
      else k in
    timer_start (emit "play" ANone (set_playing true k1)).

(** [Kinetophone.prototype.playing] (src/index.js 142-144) *)
Definition playing (k : Kinetophone) : bool := _playing k.

(** [Kinetophone.prototype._timerCallback] (src/index.js 100-118) *)
Definition _timerCallback (time : Z) (k : Kinetophone) : Kinetophone :=
  let k1 :=
    match _lastTimerCallback k with
    | None =>
        _resolveTimings 0 time
          (set_lastTimerCallback (Some time) (emit "timeupdate" (ATime time) k))
    | Some last =>
        if time - last >=? _tickResolution k then
          set_lastTimerCallback (Some time)
            (_resolveTimings (last + 1) time
               (emit "timeupdate" (ATime time) k))
        else k
    end in
  if time >? _totalDuration k1 then
    emit "end" ANone
      (_clearAllTimings
         (set_lastTimerCallback None (timer_set 0 (pause k1))))
  else k1.

(** [Kinetophone.prototype.currentTime] (src/index.js 146-159): the
    getter for [undefined], a seek otherwise (which returns [undefined]). *)
Definition currentTime (newTime : option Z) (k : Kinetophone)
  : option Z * Kinetophone :=
  match newTime with
  | None => (Some (currentTime_ (_timer k)), k)
  | Some newTime =>
      let k1 := set_lastTimerCallback (Some newTime) k in
      let newTime := if newTime <? 0 then 0 else newTime in
      let newTime :=
        if newTime >? _totalDuration k1 then _totalDuration k1 else newTime in
      (None,
       emit "seek" (ATime newTime)
         (_resolveTimings newTime newTime
            (emit "timeupdate" (ATime newTime)
               (timer_set newTime (emit "seeking" (ATime newTime) k1)))))
  end.

(** [Kinetophone.prototype.playbackRate] (src/index.js 161-167) *)
Definition playbackRate (r : option Q) (k : Kinetophone)
  : option Q * Kinetophone :=
  match r with
  | None => (Some (rate (_timer k)), k)
  | Some r => (None, timer_setRate r k)
  end.

(** ** Queries *)

(** The [map] and [reduce] of [_findTimings] (src/index.js 249-259):
    [acc] is the object under construction.  A name that is no channel
    fails on [undefined]. *)
Fixpoint _findTimings_each (filterFn : Interval -> bool)
    (treeSearchFn : IntervalTree -> Query * list Interval)
    (channels : list string) (acc : JsObj.t (list Projection))
  : M (JsObj.t (list Projection)) :=
  fun k =>
    match channels with
    | [] => (Return acc, k)
    | channel :: channels' =>
        match JsObj.get (_channels k) channel with
        | None => (Throw TypeError, k)
        | Some ch =>
            let '(q, found) := treeSearchFn (tree ch) in
            _findTimings_each filterFn treeSearchFn channels'
              (JsObj.set acc channel
                 (map (fun rawTiming =>
                         timingFromRawData channel (i_payload rawTiming))
                    (filter filterFn found)))
              (record (TreeSearch channel q) k)
        end
    end.

(** [Kinetophone.prototype._findTimings] (src/index.js 245-260).
    [channels] is [None] for [undefined]; a single name is passed as a
    one-element list. *)
Definition _findTimings (channels : option (list string))
    (filterFn : Interval -> bool)
    (treeSearchFn : IntervalTree -> Query * list Interval)
  : M (JsObj.t (list Projection)) :=
  fun k =>
    let channels :=
      match channels with Some l => l | None => JsObj.keys (_channels k) end in
    _findTimings_each filterFn treeSearchFn channels [] k.

(** [Kinetophone.prototype.getTimingsAt] (src/index.js 227-234) *)
Definition getTimingsAt (time : Z) (channels : option (list string))
  : M (JsObj.t (list Projection)) :=
  let search := fun tree => (QPoint time, search_point tree time) in
  let filter := fun rawTiming =>
    let rawTiming := i_payload rawTiming in
    (time >=? p_start rawTiming) && (time <? p_end rawTiming) in
  _findTimings channels filter search.


(** ** Construction *)

Record Options : Type := mkOptions {
  timeUpdateResolution : option Z;
  tickImmediately : bool
}.

(** The constructor (src/index.js 6-28).  [0 || 33] is [33].  With
    [tickImmediately] the constructor schedules [_timerCallback(0)] for a
    later task: that call is [tickImmediately_task]. *)
Definition Kinetophone_new (channels : option (list ChannelDecl))
    (totalDuration : JsArg) (options : Options) : Completion Kinetophone :=
  match totalDuration with
  | Undefined | Null => Throw MissingTotalDuration
  | Num totalDuration =>
      let channels := match channels with Some l => l | None => [] end in
      let this :=
        mkKinetophone [] [] totalDuration false (mkTimex 0 false 1%Q) None
          (match timeUpdateResolution options with
           | Some 0 | None => 33
           | Some r => r
           end) 0 [] in
      match forEachM addChannel channels this with
      | (Return _, this) => Return this
      | (Throw e, _) => Throw e
      end
  end.

Definition tickImmediately_task (k : Kinetophone) : Kinetophone :=
  _timerCallback 0 k.

(** The clock calling back with the elapsed time [time]: only while it
    runs. *)
Definition Timex_tick (time : Z) (k : Kinetophone) : Kinetophone :=
  if running (_timer k) then
    _timerCallback time
      (set_timer (mkTimex time true (rate (_timer k))) k)
  else k.

(** * Notions used in the statements *)

Local Open Scope list_scope.

Definition with_active_log (a : JsObj.t (list Payload)) (es : list Effect)
    (k : Kinetophone) : Kinetophone :=
  mkKinetophone (_channels k) a (_totalDuration k) (_playing k) (_timer k)
    (_lastTimerCallback k) (_tickResolution k) (next_oid k) (log k ++ es).

Definition exitEvents (channel : string) (currentTime : Z) (l : list Payload)
  : list Effect :=
  flat_map
    (fun timing =>
       if inside currentTime timing then []
       else [Emit "exit" (ATiming (exitProjection channel timing));
             Emit ("exit:" ++ channel)%string (ATiming (exitProjection channel timing))])
    l.

(** Positions, counted from [i], of the timings that [currentTime] has left. *)
Fixpoint leftAt (currentTime : Z) (i : nat) (l : list Payload) : list nat :=
  match l with
  | [] => []
  | timing :: l' =>
      if inside currentTime timing then leftAt currentTime (S i) l'
      else i :: leftAt currentTime (S i) l'
  end.

(** The timings the enter pass pushes, in order, when the array holds
    [ref] at its start. *)
Fixpoint entering (currentTime : Z) (ref : list Payload)
    (timingsToAdd : list Interval) : list Payload :=
  match timingsToAdd with
  | [] => []
  | iv :: rest =>
      let timing := i_payload iv in
      if inside currentTime timing && (indexOf ref timing =? -1)
      then timing :: entering currentTime (ref ++ [timing]) rest
      else entering currentTime ref rest
  end.

Definition enterEvents (channel : string) (l : list Payload) : list Effect :=
  flat_map
    (fun timing =>
       [Emit "enter" (ATiming (timingFromRawData channel timing));
        Emit ("enter:" ++ channel)%string
          (ATiming (timingFromRawData channel timing))])
    l.

Definition candidates (tree : IntervalTree) (lastTime currentTime : Z)
  : list Interval :=
  if lastTime =? currentTime then search_point tree currentTime
  else search_range tree lastTime currentTime.

Definition queryOf (lastTime currentTime : Z) : Query :=
  if lastTime =? currentTime then QPoint currentTime
  else QRange lastTime currentTime.

Definition resolvedActive (currentTime : Z) (ref : list Payload)
    (timingsToAdd : list Interval) : list Payload :=
  filter (inside currentTime) ref
  ++ entering currentTime (filter (inside currentTime) ref) timingsToAdd.

Definition resolveLog (channel : string) (lastTime currentTime : Z)
    (ref : list Payload) (timingsToAdd : list Interval) : list Effect :=
  TreeSearch channel (queryOf lastTime currentTime)
  :: exitEvents channel currentTime ref
  ++ enterEvents channel
       (entering currentTime (filter (inside currentTime) ref) timingsToAdd).

Definition chanActive (k : Kinetophone) (lastTime currentTime : Z)
    (channel : string) : list Payload :=
  match JsObj.get (_channels k) channel with
  | Some ch =>
      resolvedActive currentTime (timingsRef channel k)
        (candidates (tree ch) lastTime currentTime)
  | None => timingsRef channel k
  end.

Definition chanLog (k : Kinetophone) (lastTime currentTime : Z)
    (channel : string) : list Effect :=
  match JsObj.get (_channels k) channel with
  | Some ch =>
      resolveLog channel lastTime currentTime (timingsRef channel k)
        (candidates (tree ch) lastTime currentTime)
  | None => []
  end.

(** Every channel has its array of active timings. *)
Definition active_total (k : Kinetophone) : Prop :=
  forall c, In c (JsObj.keys (_channels k)) ->
            JsObj.get (_activeTimingsPerChannel k) c <> None.

(** The state a completed operation leaves, and its outcome. *)
Definition state_of {A} (r : Completion A * Kinetophone) : Kinetophone := snd r.
Definition outcome_of {A} (r : Completion A * Kinetophone) : Completion A := fst r.

(** A timing that declares both [end] and [duration]. *)
Definition conflicting (timing : Timing) : bool :=
  match t_end timing, t_duration timing with
  | Some _, Some _ => true
  | _, _ => false
  end.

(** The declarations behind the entries of a tree, in insertion order. *)
Definition declared (tree : IntervalTree) : list Timing :=
  map (fun iv => p_data (i_payload iv)) (intervals tree).

(** ** Engines used as examples *)

Definition defaults : Options := mkOptions None false.

Definition empty_engine (totalDuration : Z) : Kinetophone :=
  mkKinetophone [] [] totalDuration false (mkTimex 0 false 1%Q) None 33 0 [].

Definition constructed (channels : list ChannelDecl) (totalDuration : Z)
  : Kinetophone :=
  match Kinetophone_new (Some channels) (Num totalDuration) defaults with
  | Return k => k
  | Throw _ => empty_engine totalDuration
  end.

(** The [end] that [_addTimingToTree] computes for a declaration that is
    not [conflicting]. *)
Definition endOf (timing : Timing) : Z :=
  match t_end timing, t_duration timing with
  | None, None => t_start timing + 1
  | None, Some duration => t_start timing + duration
  | Some e, _ => e
  end.

(** The entries that inserting [l] adds to a tree when the next fresh
    identity is [n]. *)
Fixpoint normalized (n : nat) (l : list Timing) : list Interval :=
  match l with
  | [] => []
  | timing :: l' =>
      mkInterval (t_start timing) (endOf timing)
        (mkPayload n (t_start timing) (endOf timing) timing)
      :: normalized (S n) l'
  end.

(** The state after the entries for [l] went into the tree of channel
    [c], whose record was [ch]. *)
Definition inserted_in (c : string) (ch : Channel) (l : list Timing)
    (k : Kinetophone) : Kinetophone :=
  set_next_oid (next_oid k + List.length l)
    (set_channels
       (JsObj.set (_channels k) c
          (mkChannel (name ch) (timings ch)
             (mkTree (center (tree ch))
                (intervals (tree ch) ++ normalized (next_oid k) l))))
       k).

(** One channel ["c"] declared with the timing [0, 5), to which
    [addTiming] then adds [{start: 2, duration: 3}], and the same engine
    after [totalDuration(20)]. *)
Definition grown_engine : Kinetophone :=
  state_of
    (addTiming "c" (mkTiming 2 None (Some 3) None)
       (constructed [mkChannelDecl "c" (Some [mkTiming 0 (Some 5) None None])] 10)).

Definition regrown_engine : Kinetophone :=
  state_of (totalDuration (Num 20) grown_engine).

(** One channel ["c"] with the timing [1, 3), total duration 100. *)
Definition short_engine : Kinetophone :=
  constructed [mkChannelDecl "c" (Some [mkTiming 1 (Some 3) None None])] 100.

(** ** Well-formed engines *)

(** Entries as [_addTimingToTree] builds them: bounds copied from the
    payload, [start] from the declaration, identities distinct and
    already handed out. *)
Definition tree_ok (bound : nat) (tree : IntervalTree) : Prop :=
  NoDup (map (fun iv => oid (i_payload iv)) (intervals tree))
  /\ forall iv, In iv (intervals tree) ->
       i_lo iv = p_start (i_payload iv)
       /\ i_hi iv = p_end (i_payload iv)
       /\ p_start (i_payload iv) = t_start (p_data (i_payload iv))
       /\ (oid (i_payload iv) < bound)%nat.

(** An active array: no object twice, only payloads of the tree. *)
Definition active_ok (tree : IntervalTree) (l : list Payload) : Prop :=
  NoDup (map oid l) /\ incl l (map i_payload (intervals tree)).

Record WF (k : Kinetophone) : Prop := mkWF {
  wf_keys : NoDup (JsObj.keys (_channels k));
  wf_total : active_total k;
  wf_trees : forall c ch,
      JsObj.get (_channels k) c = Some ch -> tree_ok (next_oid k) (tree ch);
  wf_active : forall c ch l,
      JsObj.get (_channels k) c = Some ch ->
      JsObj.get (_activeTimingsPerChannel k) c = Some l ->
      active_ok (tree ch) l
}.

(** The exits of [_clearAllTimingsForChannel]. *)
Definition clearEvents (channel : string) (l : list Payload) : list Effect :=
  flat_map
    (fun timing =>
       [Emit "exit" (ATiming (timingFromRawData channel timing));
        Emit ("exit:" ++ channel)%string
          (ATiming (timingFromRawData channel timing))])
    l.

Definition clearLog (k : Kinetophone) (channel : string) : list Effect :=
  clearEvents channel (timingsRef channel k).

(** [newTime] after the two clamping tests of [currentTime]. *)
Definition clamped (totalDuration newTime : Z) : Z :=
  let newTime := if newTime <? 0 then 0 else newTime in
  if newTime >? totalDuration then totalDuration else newTime.

(** What [getTimingsAt(time)] lists for a channel whose tree is [tree]. *)
Definition timingsAt (channel : string) (tree : IntervalTree) (time : Z)
  : list Projection :=
  map (fun rawTiming => timingFromRawData channel (i_payload rawTiming))
    (filter
       (fun rawTiming =>
          (time >=? p_start (i_payload rawTiming))
          && (time <? p_end (i_payload rawTiming)))
       (search_point tree time)).

(** One channel ["c"] with the timing [0, 5), total duration 100. *)
Definition early_engine : Kinetophone :=
  constructed [mkChannelDecl "c" (Some [mkTiming 0 (Some 5) None None])] 100.

Definition is_search (e : Effect) : bool :=
  match e with TreeSearch _ _ => true | _ => false end.

(** The state with the tree searches struck from its log: what listeners
    and later calls can observe. *)
Definition without_searches (k : Kinetophone) : Kinetophone :=
  mkKinetophone (_channels k) (_activeTimingsPerChannel k) (_totalDuration k)
    (_playing k) (_timer k) (_lastTimerCallback k) (_tickResolution k)
    (next_oid k) (filter (fun e => negb (is_search e)) (log k)).

(** The last statement of [_timerCallback] (src/index.js 111-117). *)
Definition rollover (time : Z) (k1 : Kinetophone) : Kinetophone :=
  if time >? _totalDuration k1 then
    emit "end" ANone
      (_clearAllTimings
         (set_lastTimerCallback None (timer_set 0 (pause k1))))
  else k1.

(** The first statement of [_timerCallback] (src/index.js 101-109). *)
Definition tick_resolve (time : Z) (k : Kinetophone) : Kinetophone :=
  match _lastTimerCallback k with
  | None =>
      _resolveTimings 0 time
        (set_lastTimerCallback (Some time) (emit "timeupdate" (ATime time) k))
  | Some last =>
      if time - last >=? _tickResolution k then
        set_lastTimerCallback (Some time)
          (_resolveTimings (last + 1) time (emit "timeupdate" (ATime time) k))
      else k
  end.

(** The first tick in the words of the specification: [timeupdate], a
    point resolution at [t] for every channel, [lastResolvedTime = t]. *)
Definition first_tick_as_specified (t : Z) (k : Kinetophone) : Kinetophone :=
  set_lastTimerCallback (Some t)
    (_resolveTimings t t (emit "timeupdate" (ATime t) k)).

(** ** Operations *)

(** The public operations that change the engine, the tick of the clock
    and the task that [tickImmediately] schedules. *)
Inductive Op : Type :=
| OpAddChannel (channel : ChannelDecl)
| OpAddTiming (channelName : string) (timing : Timing)
| OpTotalDuration (duration : JsArg)
| OpPlay
| OpPause
| OpSeek (newTime : Z)
| OpPlaybackRate (r : Q)
| OpTick (time : Z)
| OpTickImmediately.

Definition step (op : Op) (k : Kinetophone) : Kinetophone :=
  match op with
  | OpAddChannel channel => state_of (addChannel channel k)
  | OpAddTiming channelName timing => state_of (addTiming channelName timing k)
  | OpTotalDuration duration => state_of (totalDuration duration k)
  | OpPlay => play k
  | OpPause => pause k
  | OpSeek newTime => snd (currentTime (Some newTime) k)
  | OpPlaybackRate r => snd (playbackRate (Some r) k)
  | OpTick time => Timex_tick time k
  | OpTickImmediately => tickImmediately_task k
  end.

(** The clock never goes back by itself, and it is not before 0 when the
    scheduled first tick runs. *)
Definition admissible (op : Op) (k : Kinetophone) : Prop :=
  match op with
  | OpTick time => currentTime_ (_timer k) <= time
  | OpTickImmediately => 0 <= currentTime_ (_timer k)
  | _ => True
  end.

(** Does the operation run a resolution? *)
Definition resolves (op : Op) (k : Kinetophone) : bool :=
  match op with
  | OpSeek _ => true
  | OpTick time =>
      running (_timer k)
      && match _lastTimerCallback k with
         | None => true
         | Some last => time - last >=? _tickResolution k
         end
  | _ => false
  end.

(** Every timing in the active set of a channel contains the time [r]. *)
Definition active_at (r : Z) (k : Kinetophone) : Prop :=
  forall c l p,
    In c (JsObj.keys (_channels k)) ->
    JsObj.get (_activeTimingsPerChannel k) c = Some l ->
    In p l -> p_start p <= r < p_end p.

(** No object is twice in the active set of a channel. *)
Definition active_nodup (k : Kinetophone) : Prop :=
  forall c l,
    In c (JsObj.keys (_channels k)) ->
    JsObj.get (_activeTimingsPerChannel k) c = Some l ->
    NoDup (map oid l).

(** The invariant as the specification words it. *)
Definition active_inv_as_specified (k : Kinetophone) : Prop :=
  active_nodup k /\ active_at (currentTime_ (_timer k)) k.

(** The invariant the code keeps: the active timings contain the time of
    the last resolution, which the clock may have passed. *)
Definition active_inv (k : Kinetophone) : Prop :=
  active_nodup k
  /\ exists r, r <= currentTime_ (_timer k) /\ active_at r k.

(** The active sets of [k'] are those of [k] or empty, and the clock is
    untouched. *)
Definition active_kept (k k' : Kinetophone) : Prop :=
  _timer k' = _timer k
  /\ forall c l,
       In c (JsObj.keys (_channels k')) ->
       JsObj.get (_activeTimingsPerChannel k') c = Some l ->
       l = []
       \/ (In c (JsObj.keys (_channels k))
           /\ JsObj.get (_activeTimingsPerChannel k) c = Some l).

(** [early_engine] played, with its first tick at 0 and a tick at 16 that
    is batched away. *)
Definition batched_engine : Kinetophone :=
  Timex_tick 16 (Timex_tick 0 (play early_engine)).

(** Does [_timerCallback(time)] run a resolution, or is the tick batched
    away? *)
Definition processes (time : Z) (k : Kinetophone) : bool :=
  match _lastTimerCallback k with
  | None => true
  | Some last => time - last >=? _tickResolution k
  end.

Definition is_end (e : Effect) : bool :=
  match e with Emit ev _ => String.eqb ev "end" | _ => false end.

(** One channel ["c"] with the timing [90, 200), total duration 100,
    played, with ticks at 0 and 95: the timing is active. *)
Definition late_engine : Kinetophone :=
  Timex_tick 95
    (Timex_tick 0
       (play (constructed
                [mkChannelDecl "c" (Some [mkTiming 90 (Some 200) None None])] 100))).

(** ** Counting the events of one timing *)

Definition option_eqb {A} (eqb : A -> A -> bool) (x y : option A) : bool :=
  match x, y with
  | Some a, Some b => eqb a b
  | None, None => true
  | _, _ => false
  end.

Definition projection_eqb (p q : Projection) : bool :=
  String.eqb (pr_name p) (pr_name q)
  && (pr_start p =? pr_start q)
  && option_eqb (option_eqb String.eqb) (pr_data p) (pr_data q)
  && option_eqb Z.eqb (pr_end p) (pr_end q)
  && option_eqb Z.eqb (pr_duration p) (pr_duration q).

Definition is_emit (ev : string) (p : Projection) (e : Effect) : bool :=
  match e with
  | Emit ev' (ATiming p') => String.eqb ev ev' && projection_eqb p p'
  | _ => false
  end.

(** How many times the log has [emit(ev, p)]. *)
Definition emitted (ev : string) (p : Projection) (es : list Effect) : nat :=
  List.length (filter (is_emit ev p) es).

(** Is the object [p] in the array [l]? *)
Definition has (p : Payload) (l : list Payload) : bool :=
  existsb (fun q => Nat.eqb (oid q) (oid p)) l.

(** The ticks of [ts] that [_timerCallback] resolves (the others are
    batched away), [last] being the value of [_lastTimerCallback]. *)
Fixpoint processed (res : Z) (last : option Z) (ts : list Z) : list Z :=
  match ts with
  | [] => []
  | t :: ts' =>
      match last with
      | None => t :: processed res (Some t) ts'
      | Some l =>
          if t - l >=? res then t :: processed res (Some t) ts'
          else processed res last ts'
      end
  end.

(** The callback of the clock called with the times [ts], in order. *)
Definition run_ticks (ts : list Z) (k : Kinetophone) : Kinetophone :=
  fold_left (fun k' t => _timerCallback t k') ts k.

(** The enters and exits of the timing [p], and whether it ends active,
    over resolutions at the times [proc], [a] telling whether it starts
    active. *)
Fixpoint track (p : Payload) (a : bool) (proc : list Z) : nat * nat * bool :=
  match proc with
  | [] => (O, O, a)
  | t :: proc' =>
      let '(n, x, a') := track p (inside t p) proc' in
      ((if inside t p && negb a then S n else n),
       (if a && negb (inside t p) then S x else x),
       a')
  end.

(** Scenario A of the specification: channel ["captions"] with the
    timing [{start: 5, end: 10, data: "hi"}], total duration 165. *)
Definition captions_engine : Kinetophone :=
  constructed
    [mkChannelDecl "captions" (Some [mkTiming 5 (Some 10) None (Some "hi")])] 165.

Definition captions_timing : Payload :=
  mkPayload 0 5 10 (mkTiming 5 (Some 10) None (Some "hi")).

(** The payloads in the tree of channel [c]. *)
Definition payloads_of (k : Kinetophone) (c : string) : list Payload :=
  match JsObj.get (_channels k) c with
  | Some ch => map i_payload (intervals (tree ch))
  | None => []
  end.

(** One channel ["captions"] with the timing [30, 70), total duration
    165. *)
Definition scene_engine : Kinetophone :=
  constructed
    [mkChannelDecl "captions" (Some [mkTiming 30 (Some 70) None None])] 165.

Definition scene_timing : Payload :=
  mkPayload 0 30 70 (mkTiming 30 (Some 70) None None).

(** The facts about the timing [p] of channel [c] that no tick changes:
    it is in the tree of [c], no other entry of that tree has its
    declaration, and the tick resolution is positive. *)
Definition settled_in (c : string) (p : Payload) (k : Kinetophone) : Prop :=
  WF k
  /\ In p (payloads_of k c)
  /\ (forall q, In q (payloads_of k c) -> p_data q = p_data p -> q = p)
  /\ 0 < _tickResolution k.

(** ** Notions for the further properties *)

(** Everything but the channels, the active sets, the fresh identities
    and [_totalDuration] is the same in [k'] as in [k]: no event, no call
    to the clock, no change of the playback state. *)
Definition silent (k k' : Kinetophone) : Prop :=
  log k' = log k
  /\ _timer k' = _timer k
  /\ _playing k' = _playing k
  /\ _lastTimerCallback k' = _lastTimerCallback k
  /\ _tickResolution k' = _tickResolution k.

(** The clock runs exactly while the engine plays. *)
Definition in_step (k : Kinetophone) : Prop :=
  running (_timer k) = _playing k.

(** The timings of a tree that contain [time]. *)
Definition containing (tree : IntervalTree) (time : Z) : list Payload :=
  filter (inside time) (map i_payload (intervals tree)).

(** One channel ["c"] with the timing [90, 200), total duration 100,
    after [seek(100)]: the clock is at the end and the timing is
    active. *)
Definition ended_engine : Kinetophone :=
  snd (currentTime (Some 100)
         (constructed
            [mkChannelDecl "c" (Some [mkTiming 90 (Some 200) None None])] 100)).

(** The declared timings of an [addChannel] argument. *)
Definition declared_timings (channel : ChannelDecl) : list Timing :=
  match c_timings channel with Some l => l | None => [] end.

(** No timing of the channel declares both [end] and [duration]. *)
Definition well_declared (channel : ChannelDecl) : bool :=
  forallb (fun timing => negb (conflicting timing)) (declared_timings channel).


(** Channels that [totalDuration] can rebuild: distinct names, every
    record stored under its own name, no declared timing with both [end]
    and [duration]. *)
Definition rebuildable (chs : JsObj.t Channel) : Prop :=
  NoDup (JsObj.keys chs)
  /\ forall c ch, In (c, ch) chs ->
       name ch = c
       /\ forallb (fun timing => negb (conflicting timing)) (timings ch) = true.

(** [new] is the channel [old] rebuilt for the total duration [d]: same
    name and declared timings, a tree made with [d / 2] that holds the
    declared timings and nothing else. *)
Definition rebuilt_as (d : Z) (old new : string * Channel) : Prop :=
  fst new = fst old
  /\ name (snd new) = fst old
  /\ timings (snd new) = timings (snd old)
  /\ center (tree (snd new)) = Qmake d 2
  /\ declared (tree (snd new)) = timings (snd old).

(** The timings of an active array that [currentTime] has left. *)
Definition leaving (currentTime : Z) (ref : list Payload) : list Payload :=
  filter (fun timing => negb (inside currentTime timing)) ref.

(** The exits of a resolution, for the timings [l] that leave. *)
Definition leaveEvents (channel : string) (l : list Payload) : list Effect :=
  flat_map
    (fun timing =>
       [Emit "exit" (ATiming (exitProjection channel timing));
        Emit ("exit:" ++ channel)%string (ATiming (exitProjection channel timing))])
    l.

(** * Properties *)

(** ** Association lists *)

Module JsObjFacts.
Import JsObj.

Section Facts.
Context {V : Type}.
Implicit Types (o : t V) (k : string) (v : V).

Lemma get_set_same o k v : get (set o k v) k = Some v.
Proof.
  unfold keys in *.
  induction o as [|[k' v'] o IH]; simpl.
  - now rewrite String.eqb_refl.
  - destruct (String.eqb k' k) eqn:E; simpl; rewrite E; auto.
Qed.

Lemma get_set_other o k k' v : k' <> k -> get (set o k v) k' = get o k'.
Proof.
  unfold keys in *.
  intros Hne. induction o as [|[k0 v0] o IH]; simpl.
  - destruct (String.eqb k k') eqn:E; auto.
    apply String.eqb_eq in E. congruence.
  - destruct (String.eqb k0 k) eqn:E; simpl.
    + apply String.eqb_eq in E. subst k0.
      destruct (String.eqb k k') eqn:E'; auto.
      apply String.eqb_eq in E'. congruence.
    + now rewrite IH.
Qed.

Lemma get_In_keys o k : get o k <> None <-> In k (keys o).
Proof.
  unfold keys in *.
  induction o as [|[k0 v0] o IH]; simpl.
  - split; [congruence | tauto].
  - destruct (String.eqb k0 k) eqn:E.
    + apply String.eqb_eq in E. split; [auto | congruence].
    + apply String.eqb_neq in E. rewrite IH. tauto.
Qed.

Lemma get_None_keys o k : get o k = None <-> ~ In k (keys o).
Proof.
  rewrite <- get_In_keys. destruct (get o k) as [v|].
  - split; [congruence | intros H; exfalso; apply H; congruence].
  - split; [intros _ H; now apply H | reflexivity].
Qed.

Lemma get_Some_In o k v : get o k = Some v -> In (k, v) o.
Proof.
  unfold keys in *.
  induction o as [|[k0 v0] o IH]; simpl; [congruence|].
  destruct (String.eqb k0 k) eqn:E.
  - apply String.eqb_eq in E. intros [= ->]. subst. auto.
  - auto.
Qed.

Lemma keys_set_present o k v : In k (keys o) -> keys (set o k v) = keys o.
Proof.
  unfold keys in *.
  induction o as [|[k0 v0] o IH]; simpl; [tauto|].
  destruct (String.eqb k0 k) eqn:E; simpl; auto.
  apply String.eqb_neq in E. intros [H|H]; [congruence|].
  now rewrite IH.
Qed.

Lemma keys_set_absent o k v : ~ In k (keys o) -> keys (set o k v) = (keys o ++ [k])%list.
Proof.
  unfold keys in *.
  induction o as [|[k0 v0] o IH]; simpl; auto.
  intros H. destruct (String.eqb k0 k) eqn:E.
  - apply String.eqb_eq in E. tauto.
  - simpl. rewrite IH; tauto.
Qed.

Lemma set_same o k v : get o k = Some v -> set o k v = o.
Proof.
  induction o as [|[k0 v0] o IH]; simpl; [congruence|].
  destruct (String.eqb k0 k) eqn:E.
  - now intros [= ->].
  - intros H. now rewrite IH.
Qed.

Lemma set_set o k v1 v2 : set (set o k v1) k v2 = set o k v2.
Proof.
  induction o as [|[k0 v0] o IH]; simpl.
  - now rewrite String.eqb_refl.
  - destruct (String.eqb k0 k) eqn:E; simpl; rewrite E; auto.
    now rewrite IH.
Qed.

Lemma NoDup_keys_set o k v : NoDup (keys o) -> NoDup (keys (set o k v)).
Proof.
  intros H. destruct (in_dec string_dec k (keys o)) as [Hin|Hin].
  - now rewrite keys_set_present.
  - rewrite keys_set_absent by auto.
    apply NoDup_app; auto.
    + constructor; [simpl; tauto | constructor].
    + intros x Hx [<-|[]]. tauto.
Qed.

Lemma In_keys_set o k k' v : In k' (keys (set o k v)) <-> k' = k \/ In k' (keys o).
Proof.
  rewrite <- !get_In_keys. destruct (string_dec k' k) as [->|Hne].
  - rewrite get_set_same. split; [auto | congruence].
  - rewrite get_set_other by auto. split; [auto | intros [?|?]; congruence || auto].
Qed.

Lemma keys_delete_incl o k k' : In k' (keys (delete o k)) -> In k' (keys o).
Proof.
  unfold keys in *.
  induction o as [|[k0 v0] o IH]; simpl; auto.
  destruct (String.eqb k0 k); simpl; tauto.
Qed.

Lemma NoDup_keys_delete o k : NoDup (keys o) -> NoDup (keys (delete o k)).
Proof.
  unfold keys in *.
  induction o as [|[k0 v0] o IH]; simpl; auto.
  intros H. inversion H; subst.
  destruct (String.eqb k0 k); simpl; auto.
  constructor; auto. intros Hin. now apply keys_delete_incl in Hin.
Qed.

Lemma get_delete_same o k : NoDup (keys o) -> get (delete o k) k = None.
Proof.
  unfold keys in *.
  induction o as [|[k0 v0] o IH]; simpl; auto.
  intros H. inversion H; subst.
  destruct (String.eqb k0 k) eqn:E; simpl.
  - apply String.eqb_eq in E. subst. now apply get_None_keys.
  - rewrite E. auto.
Qed.

Lemma get_delete_other o k k' : k' <> k -> get (delete o k) k' = get o k'.
Proof.
  unfold keys in *.
  intros Hne. induction o as [|[k0 v0] o IH]; simpl; auto.
  destruct (String.eqb k0 k) eqn:E; simpl.
  - apply String.eqb_eq in E. subst.
    destruct (String.eqb k k') eqn:E'; auto.
    apply String.eqb_eq in E'. congruence.
  - now rewrite IH.
Qed.

End Facts.
End JsObjFacts.
Import JsObjFacts.

(** ** Normal form of the states the resolver produces *)

Lemma with_active_log_id k :
  with_active_log (_activeTimingsPerChannel k) [] k = k.
Proof. destruct k; unfold with_active_log; simpl. now rewrite app_nil_r. Qed.

Lemma with_active_log_twice a1 es1 a2 es2 k :
  with_active_log a2 es2 (with_active_log a1 es1 k)
  = with_active_log a2 (es1 ++ es2) k.
Proof. unfold with_active_log; simpl. now rewrite app_assoc. Qed.

Lemma emit_with ev a k :
  emit ev a k = with_active_log (_activeTimingsPerChannel k) [Emit ev a] k.
Proof. reflexivity. Qed.

Lemma record_with e k :
  record e k = with_active_log (_activeTimingsPerChannel k) [e] k.
Proof. reflexivity. Qed.

Lemma set_active_with a k : set_active a k = with_active_log a [] k.
Proof. destruct k; unfold with_active_log, set_active; simpl. now rewrite app_nil_r. Qed.

(** ** The exit pass *)

Lemma exit_test_inside currentTime timing :
  (currentTime <? p_start timing) || (currentTime >=? p_end timing)
  = negb (inside currentTime timing).
Proof.
  unfold inside. rewrite Z.geb_leb.
  destruct (Z.ltb_spec currentTime (p_start timing)),
           (Z.leb_spec (p_end timing) currentTime),
           (Z.leb_spec (p_start timing) currentTime),
           (Z.ltb_spec currentTime (p_end timing)); simpl; auto; lia.
Qed.

Lemma enter_test_inside currentTime timing :
  (currentTime >=? p_start timing) && (currentTime <? p_end timing)
  = inside currentTime timing.
Proof. unfold inside. now rewrite Z.geb_leb. Qed.

Lemma exitPass_eq channel currentTime l :
  forall i acc k,
    exitPass channel currentTime i l acc k
    = (rev (leftAt currentTime i l) ++ acc,
       with_active_log (_activeTimingsPerChannel k)
         (exitEvents channel currentTime l) k)%list.
Proof.
  induction l as [|timing l IH]; intros i acc k; simpl.
  - now rewrite with_active_log_id.
  - rewrite exit_test_inside. destruct (inside currentTime timing); simpl.
    + apply IH.
    + rewrite IH, !emit_with, !with_active_log_twice. simpl.
      now rewrite <- app_assoc.
Qed.

Lemma splice1_app {A} (l r : list A) idx :
  (idx < List.length l)%nat -> splice1 idx (l ++ r) = (splice1 idx l ++ r)%list.
Proof.
  revert idx. induction l as [|a l IH]; intros idx H; simpl in *; [lia|].
  destruct idx; auto. simpl. f_equal. apply IH. lia.
Qed.

Lemma splice1_last {A} (l : list A) a : splice1 (List.length l) (l ++ [a]) = l.
Proof. induction l as [|b l IH]; simpl; auto. now rewrite IH. Qed.

Lemma splice1_length {A} (l : list A) idx :
  (idx < List.length l)%nat -> List.length (splice1 idx l) = pred (List.length l).
Proof.
  revert idx. induction l as [|a l IH]; intros idx H; simpl in *; [lia|].
  destruct idx; auto. simpl. rewrite IH by lia. lia.
Qed.

(** Removing positions from the highest down never moves a position that
    is still to be removed. *)
Lemma splice_descending_app {A} (js : list nat) :
  forall (l r : list A),
    StronglySorted (fun a b => (b < a)%nat) js ->
    Forall (fun j => (j < List.length l)%nat) js ->
    fold_left (fun l idx => splice1 idx l) js (l ++ r)
    = (fold_left (fun l idx => splice1 idx l) js l ++ r)%list.
Proof.
  induction js as [|j js IH]; intros l r Hs Hb; simpl; auto.
  inversion Hs; subst. inversion Hb; subst.
  rewrite splice1_app by auto. apply IH; auto.
  rewrite Forall_forall in *. intros x Hx.
  rewrite splice1_length by auto. specialize (H2 x Hx). simpl in H2. lia.
Qed.

Lemma leftAt_bounds currentTime l :
  forall i, Forall (fun j => (i <= j < i + List.length l)%nat) (leftAt currentTime i l).
Proof.
  induction l as [|timing l IH]; intros i; simpl; [constructor|].
  assert (Forall (fun j => (i <= j < i + S (List.length l))%nat) (leftAt currentTime (S i) l)).
  { eapply Forall_impl; [|apply IH]. simpl. intros; lia. }
  destruct (inside currentTime timing); auto. constructor; auto. lia.
Qed.

Lemma leftAt_app currentTime l1 l2 i :
  leftAt currentTime i (l1 ++ l2)
  = (leftAt currentTime i l1 ++ leftAt currentTime (i + List.length l1) l2)%list.
Proof.
  revert i. induction l1 as [|timing l1 IH]; intros i; simpl.
  - now rewrite Nat.add_0_r.
  - rewrite IH. replace (S i + List.length l1)%nat with (i + S (List.length l1))%nat by lia.
    destruct (inside currentTime timing); auto.
Qed.

Lemma leftAt_rev_sorted currentTime l :
  forall i, StronglySorted (fun a b => (b < a)%nat) (rev (leftAt currentTime i l)).
Proof.
  induction l as [|timing l IH] using rev_ind; intros i; simpl; [constructor|].
  rewrite leftAt_app. simpl.
  destruct (inside currentTime timing); simpl.
  - rewrite app_nil_r. apply IH.
  - rewrite rev_app_distr. simpl. constructor; [apply IH|].
    rewrite Forall_forall. intros x Hx. apply in_rev in Hx.
    pose proof (leftAt_bounds currentTime l i) as Hb.
    rewrite Forall_forall in Hb. specialize (Hb x Hx). lia.
Qed.

(** The [splice] loop (src/index.js 202-204) keeps exactly the timings
    that still contain [currentTime], in their order. *)
Lemma splice_leftAt currentTime l :
  fold_left (fun l idx => splice1 idx l) (rev (leftAt currentTime 0 l) ++ []) l
  = filter (inside currentTime) l.
Proof.
  rewrite app_nil_r.
  induction l as [|timing l IH] using rev_ind; simpl; auto.
  rewrite leftAt_app, filter_app. simpl.
  destruct (inside currentTime timing); simpl.
  - rewrite app_nil_r. rewrite splice_descending_app.
    + now rewrite IH.
    + apply leftAt_rev_sorted.
    + rewrite Forall_forall. intros x Hx. apply in_rev in Hx.
      pose proof (leftAt_bounds currentTime l 0) as Hb.
      rewrite Forall_forall in Hb. specialize (Hb x Hx). lia.
  - rewrite rev_app_distr. simpl. rewrite splice1_last, app_nil_r. apply IH.
Qed.

(** ** The enter pass *)

Lemma timingsRef_get channel k ref :
  JsObj.get (_activeTimingsPerChannel k) channel = Some ref ->
  timingsRef channel k = ref.
Proof. unfold timingsRef. now intros ->. Qed.

Lemma enterPass_eq channel currentTime timingsToAdd :
  forall k ref,
    JsObj.get (_activeTimingsPerChannel k) channel = Some ref ->
    enterPass channel currentTime timingsToAdd k
    = with_active_log
        (JsObj.set (_activeTimingsPerChannel k) channel
           (ref ++ entering currentTime ref timingsToAdd))
        (enterEvents channel (entering currentTime ref timingsToAdd)) k.
Proof.
  induction timingsToAdd as [|iv rest IH]; intros k ref Hget; simpl.
  - rewrite app_nil_r, set_same by auto. now rewrite with_active_log_id.
  - rewrite enter_test_inside, (timingsRef_get _ _ Hget).
    destruct (inside currentTime (i_payload iv) && (indexOf ref (i_payload iv) =? -1)).
    + erewrite IH by (simpl; apply get_set_same).
      rewrite !emit_with, set_active_with, !with_active_log_twice. simpl.
      unfold timingsRef. simpl. rewrite Hget, set_set, <- app_assoc. reflexivity.
    + now apply IH.
Qed.

(** ** One channel, then all channels *)

Lemma resolveTimingsForChannel_eq channel lastTime currentTime k ref ch :
  JsObj.get (_activeTimingsPerChannel k) channel = Some ref ->
  JsObj.get (_channels k) channel = Some ch ->
  _resolveTimingsForChannel channel lastTime currentTime k
  = with_active_log
      (JsObj.set (_activeTimingsPerChannel k) channel
         (resolvedActive currentTime ref (candidates (tree ch) lastTime currentTime)))
      (resolveLog channel lastTime currentTime ref
         (candidates (tree ch) lastTime currentTime)) k.
Proof.
  intros Hget Hch. unfold _resolveTimingsForChannel, resolvedActive, resolveLog,
    candidates, queryOf.
  rewrite Hget, Hch.
  destruct (lastTime =? currentTime);
    rewrite exitPass_eq, splice_leftAt, record_with, set_active_with,
      !with_active_log_twice;
    (erewrite enterPass_eq by (simpl; apply get_set_same));
    rewrite with_active_log_twice; simpl; now rewrite set_set, app_nil_r.
Qed.

Lemma resolve_fold k lastTime currentTime :
  forall cs a es,
    NoDup cs ->
    (forall c, In c cs ->
       JsObj.get a c = JsObj.get (_activeTimingsPerChannel k) c
       /\ JsObj.get (_activeTimingsPerChannel k) c <> None
       /\ In c (JsObj.keys (_channels k))) ->
    fold_left
      (fun k' chan => _resolveTimingsForChannel chan lastTime currentTime k')
      cs (with_active_log a es k)
    = with_active_log
        (fold_left (fun a c => JsObj.set a c (chanActive k lastTime currentTime c)) cs a)
        (es ++ flat_map (chanLog k lastTime currentTime) cs) k.
Proof.
  induction cs as [|c cs IH]; intros a es Hnd H; simpl.
  - now rewrite app_nil_r.
  - inversion Hnd; subst.
    destruct (H c (or_introl eq_refl)) as (Ha & Hk & Hin).
    destruct (JsObj.get (_activeTimingsPerChannel k) c) as [ref|] eqn:Hget;
      [|congruence].
    apply get_In_keys in Hin.
    destruct (JsObj.get (_channels k) c) as [ch|] eqn:Hch; [|congruence].
    erewrite resolveTimingsForChannel_eq by (simpl; eauto).
    rewrite with_active_log_twice. simpl. rewrite IH; auto.
    + unfold chanActive, chanLog. rewrite Hch, (timingsRef_get _ _ Hget).
      now rewrite <- app_assoc.
    + intros c' Hc'. destruct (H c' (or_intror Hc')) as (Ha' & Hk' & Hin').
      repeat split; auto. rewrite get_set_other; auto. congruence.
Qed.

Lemma resolveTimings_eq k lastTime currentTime :
  NoDup (JsObj.keys (_channels k)) ->
  active_total k ->
  _resolveTimings lastTime currentTime k
  = with_active_log
      (fold_left (fun a c => JsObj.set a c (chanActive k lastTime currentTime c))
         (JsObj.keys (_channels k)) (_activeTimingsPerChannel k))
      (flat_map (chanLog k lastTime currentTime) (JsObj.keys (_channels k))) k.
Proof.
  intros Hnd Htot. unfold _resolveTimings.
  rewrite <- (with_active_log_id k) at 2.
  rewrite resolve_fold; auto.
Qed.

Lemma get_fold_set {V} (f : string -> V) cs :
  forall (a : JsObj.t V) c,
    JsObj.get (fold_left (fun a c => JsObj.set a c (f c)) cs a) c
    = if in_dec string_dec c cs then Some (f c) else JsObj.get a c.
Proof.
  induction cs as [|c0 cs IH]; intros a c; simpl; auto.
  rewrite IH. destruct (in_dec string_dec c cs) as [Hin|Hin].
  - destruct (string_dec c0 c); auto.
  - destruct (string_dec c0 c) as [->|Hne].
    + now rewrite get_set_same.
    + rewrite get_set_other; auto.
Qed.

Lemma keys_fold_set {V} (f : string -> V) cs :
  forall (a : JsObj.t V),
    (forall c, In c cs -> In c (JsObj.keys a)) ->
    JsObj.keys (fold_left (fun a c => JsObj.set a c (f c)) cs a) = JsObj.keys a.
Proof.
  induction cs as [|c0 cs IH]; intros a H; simpl; auto.
  rewrite IH.
  - apply keys_set_present. apply H. now left.
  - intros c Hc. rewrite keys_set_present; apply H; simpl; auto.
Qed.

(** ** The normalizer and the failing operations *)

(** C7: [_addTimingToTree] normalizes a declaration to [(start, end)] with
    [end = start + 1] when neither [end] nor [duration] is given,
    [end = start + duration] when only [duration] is given, the declared
    [end] when only [end] is given, and inserts that interval; when both
    are given it throws ConflictingBounds and the state is untouched. *)
Theorem C7_normalizer_rules :
  forall (tree : string) (start : Z) (data : option Data) (k : Kinetophone),
    let inserted timing end_ :=
      (Return tt,
       tree_add_in tree
         (mkInterval start end_ (mkPayload (next_oid k) start end_ timing))
         (set_next_oid (S (next_oid k)) k)) in
    _addTimingToTree tree (mkTiming start None None data) k
    = inserted (mkTiming start None None data) (start + 1)
    /\ (forall duration,
          _addTimingToTree tree (mkTiming start None (Some duration) data) k
          = inserted (mkTiming start None (Some duration) data) (start + duration))
    /\ (forall end_,
          _addTimingToTree tree (mkTiming start (Some end_) None data) k
          = inserted (mkTiming start (Some end_) None data) end_)
    /\ (forall end_ duration,
          _addTimingToTree tree (mkTiming start (Some end_) (Some duration) data) k
          = (Throw ConflictingBounds, k)).
Proof. intros; repeat split. Qed.

(** C8, as stated, fails: [totalDuration(undefined)] does not throw, it
    is the getter. *)
Lemma C8_counterexample :
  totalDuration Undefined (empty_engine 100)
  = (Return (Some 100), empty_engine 100)
  /\ outcome_of (totalDuration Undefined (empty_engine 100))
     <> Throw InvalidDuration.
Proof. split; [reflexivity | discriminate]. Qed.

(** C8, amended: setting [totalDuration] to [null] throws
    InvalidDuration and leaves the whole state unchanged; a call with
    [undefined], like a call without argument, is the getter: it returns
    the current [totalDuration] and changes nothing. *)
Theorem C8_null_throws_undefined_gets :
  forall k,
    totalDuration Null k = (Throw InvalidDuration, k)
    /\ totalDuration Undefined k = (Return (Some (_totalDuration k)), k).
Proof. intros; split; reflexivity. Qed.

Lemma forEachM_app {A} (f : A -> M unit) l1 l2 k :
  forEachM f (l1 ++ l2) k
  = match forEachM f l1 k with
    | (Return _, k') => forEachM f l2 k'
    | (Throw e, k') => (Throw e, k')
    end.
Proof.
  revert k. induction l1 as [|a l1 IH]; intros k; simpl; auto.
  unfold bind. destruct (f a k) as [[[]|e] k']; auto.
Qed.

Lemma addTimingToTree_conflicting c timing k :
  conflicting timing = true ->
  _addTimingToTree c timing k = (Throw ConflictingBounds, k).
Proof.
  unfold conflicting, _addTimingToTree.
  destruct (t_end timing), (t_duration timing); congruence.
Qed.

Lemma addTimingToTree_valid c timing k :
  conflicting timing = false ->
  _addTimingToTree c timing k
  = (Return tt,
     tree_add_in c
       (mkInterval (t_start timing) (endOf timing)
          (mkPayload (next_oid k) (t_start timing) (endOf timing) timing))
       (set_next_oid (S (next_oid k)) k)).
Proof.
  unfold conflicting, _addTimingToTree, endOf.
  destruct (t_end timing), (t_duration timing); congruence.
Qed.

Lemma addTimingToTree_throws c timing k e :
  outcome_of (_addTimingToTree c timing k) = Throw e ->
  _addTimingToTree c timing k = (Throw ConflictingBounds, k).
Proof.
  destruct (conflicting timing) eqn:E.
  - intros _. now apply addTimingToTree_conflicting.
  - rewrite addTimingToTree_valid by auto. discriminate.
Qed.

Lemma inserted_in_nil c ch k :
  JsObj.get (_channels k) c = Some ch -> inserted_in c ch [] k = k.
Proof.
  intros H. unfold inserted_in. simpl. rewrite app_nil_r, Nat.add_0_r.
  destruct ch as [n ts [ce ivs]]; simpl. rewrite set_same by auto.
  now destruct k.
Qed.

(** Inserting declarations none of which conflicts succeeds and appends
    their normalized entries to the tree of the channel. *)
Lemma forEach_addTimingToTree c l :
  forall k ch,
    JsObj.get (_channels k) c = Some ch ->
    forallb (fun timing => negb (conflicting timing)) l = true ->
    forEachM (_addTimingToTree c) l k = (Return tt, inserted_in c ch l k).
Proof.
  induction l as [|timing l IH]; intros k ch Hget Hok; simpl.
  - now rewrite inserted_in_nil.
  - simpl in Hok. apply andb_true_iff in Hok as [Hv Hok].
    apply negb_true_iff in Hv. unfold bind.
    rewrite addTimingToTree_valid by auto.
    unfold tree_add_in. simpl. rewrite Hget.
    erewrite IH; [|simpl; apply get_set_same|auto].
    unfold inserted_in, set_next_oid, set_channels, tree_add. simpl.
    rewrite set_set, <- app_assoc. simpl.
    now replace (S (next_oid k + List.length l)) with (next_oid k + S (List.length l))%nat by lia.
Qed.

Lemma declared_normalized n l :
  map (fun iv => p_data (i_payload iv)) (normalized n l) = l.
Proof. revert n. induction l as [|t l IH]; intros n; simpl; [|rewrite IH]; auto. Qed.

(** C3, as stated, fails: an [addChannel] that throws on its second
    timing has already made the channel visible, with its first timing
    inserted and an active set created. *)
Lemma C3_counterexample :
  let bad := mkChannelDecl "x"
               (Some [mkTiming 0 None None None;
                      mkTiming 1 (Some 4) (Some 3) None]) in
  let r := addChannel bad (empty_engine 100) in
  outcome_of r = Throw ConflictingBounds
  /\ state_of r <> empty_engine 100
  /\ JsObj.keys (_channels (state_of r)) = ["x"]
  /\ option_map (fun ch => declared (tree ch)) (JsObj.get (_channels (state_of r)) "x")
     = Some [mkTiming 0 None None None]
  /\ JsObj.get (_activeTimingsPerChannel (state_of r)) "x" = Some [].
Proof. cbv zeta. repeat split; try (vm_compute; reflexivity). vm_compute. discriminate. Qed.

(** C3, amended: a throw never inserts the offending timing.
    DuplicateChannel, UnknownChannel, InvalidDuration and a
    ConflictingBounds thrown by [addTiming] leave the state unchanged.  An
    [addChannel] that throws ConflictingBounds has already registered the
    channel: it is visible, its active set exists and is empty, and
    exactly the timings before the offending one are in its tree. *)
Theorem C3_abort_effects :
  forall k name pre bad post,
    JsObj.get (_channels k) name = None ->
    forallb (fun timing => negb (conflicting timing)) pre = true ->
    conflicting bad = true ->
    let r := addChannel (mkChannelDecl name (Some (pre ++ bad :: post))) k in
    (outcome_of r = Throw ConflictingBounds
     /\ (exists ch,
           JsObj.get (_channels (state_of r)) name = Some ch
           /\ timings ch = pre ++ bad :: post
           /\ declared (tree ch) = pre)
     /\ JsObj.get (_activeTimingsPerChannel (state_of r)) name = Some []
     /\ (forall c, c <> name ->
           JsObj.get (_channels (state_of r)) c = JsObj.get (_channels k) c
           /\ JsObj.get (_activeTimingsPerChannel (state_of r)) c
              = JsObj.get (_activeTimingsPerChannel k) c))
    /\ (forall channel,
          JsObj.get (_channels k) (c_name channel) <> None ->
          addChannel channel k = (Throw (DuplicateChannel (c_name channel)), k))
    /\ (forall c timing e,
          outcome_of (addTiming c timing k) = Throw e ->
          state_of (addTiming c timing k) = k)
    /\ totalDuration Null k = (Throw InvalidDuration, k).
Proof.
  intros k name pre bad post Hnew Hpre Hbad r.
  repeat apply conj.
  - subst r. unfold addChannel. simpl. rewrite Hnew, forEachM_app.
    erewrite forEach_addTimingToTree; [|simpl; apply get_set_same|auto].
    simpl. unfold bind. now rewrite addTimingToTree_conflicting.
  - subst r. unfold addChannel. simpl. rewrite Hnew, forEachM_app.
    erewrite forEach_addTimingToTree; [|simpl; apply get_set_same|auto].
    simpl. unfold bind. rewrite addTimingToTree_conflicting by auto.
    simpl. rewrite set_set, get_set_same. eexists. split; [reflexivity|].
    simpl. split; auto. unfold declared. simpl. apply declared_normalized.
  - subst r. unfold addChannel. simpl. rewrite Hnew, forEachM_app.
    erewrite forEach_addTimingToTree; [|simpl; apply get_set_same|auto].
    simpl. unfold bind. rewrite addTimingToTree_conflicting by auto.
    simpl. apply get_set_same.
  - intros c Hc. subst r. unfold addChannel. simpl. rewrite Hnew, forEachM_app.
    erewrite forEach_addTimingToTree; [|simpl; apply get_set_same|auto].
    simpl. unfold bind. rewrite addTimingToTree_conflicting by auto.
    simpl. rewrite set_set, !get_set_other by auto. auto.
  - intros channel Hdup. unfold addChannel.
    destruct (JsObj.get (_channels k) (c_name channel)); congruence.
  - intros c timing e. unfold addTiming.
    destruct (JsObj.get (_channels k) c); auto.
    intros H. now rewrite (addTimingToTree_throws _ _ _ H).
  - reflexivity.
Qed.

Lemma C3_abort_effects_witness :
  let r := addChannel
             (mkChannelDecl "x"
                (Some ([mkTiming 0 None None None]
                       ++ mkTiming 1 (Some 4) (Some 3) None :: [])))
             (empty_engine 100) in
  outcome_of r = Throw ConflictingBounds
  /\ JsObj.get (_activeTimingsPerChannel (state_of r)) "x" = Some [].
Proof.
  pose proof (C3_abort_effects (empty_engine 100) "x"
                [mkTiming 0 None None None]
                (mkTiming 1 (Some 4) (Some 3) None) []
                eq_refl eq_refl eq_refl) as H.
  cbv zeta in *. destruct H as ((H1 & _ & H3 & _) & _). split; assumption.
Defined.

(** ** Rebuilding the channels, seeking out of range *)

(** C4: the code loses, at the rebuild, the timings that [addTiming]
    added: they went into the tree only, and the rebuild reads the
    [timings] list of the channel.  Before [totalDuration(20)] both
    timings of ["c"] are found at time 3; after it only the one declared
    with the channel is. *)
Theorem C4_rebuild_drops_added_timings :
  outcome_of (getTimingsAt 3 None grown_engine)
  = Return [("c", [mkProjection "c" 0 None (Some 5) None;
                   mkProjection "c" 2 None None (Some 3)])]
  /\ outcome_of (totalDuration (Num 20) grown_engine) = Return None
  /\ outcome_of (getTimingsAt 3 None regrown_engine)
     = Return [("c", [mkProjection "c" 0 None (Some 5) None])]
  /\ _activeTimingsPerChannel regrown_engine = [("c", [])].
Proof. repeat split; vm_compute; reflexivity. Qed.

(** C5: the code stores the time it was given, before clamping it, in
    [_lastTimerCallback]; the events and the clock get the clamped time.
    [seek(-5)] with total duration 100: *)
Theorem C5_seek_stores_unclamped_time :
  let k := snd (currentTime (Some (-5)) short_engine) in
  _lastTimerCallback k = Some (-5)
  /\ currentTime_ (_timer k) = 0
  /\ log k = [Emit "seeking" (ATime 0); TimerSet 0; Emit "timeupdate" (ATime 0);
              TreeSearch "c" (QPoint 0); Emit "seek" (ATime 0)].
Proof. repeat split; vm_compute; reflexivity. Qed.

(** ** Well-formedness is kept by the resolver *)

Lemma indexOf_from_spec l x :
  forall i, 0 <= i ->
    (indexOf_from i l x = -1 <-> ~ In (oid x) (map oid l))
    /\ (indexOf_from i l x = -1 \/ i <= indexOf_from i l x).
Proof.
  induction l as [|y l IH]; intros i Hi; simpl.
  - split; [tauto | auto].
  - destruct (Nat.eqb_spec (oid y) (oid x)) as [E|E].
    + split; [|right; lia]. split; [lia | intros H; exfalso; apply H; auto].
    + destruct (IH (i + 1)) as [IH1 IH2]; [lia|]. split.
      * rewrite IH1. tauto.
      * destruct IH2; [auto | right; lia].
Qed.

Lemma indexOf_absent l x :
  (indexOf l x =? -1) = true <-> ~ In (oid x) (map oid l).
Proof.
  unfold indexOf. rewrite Z.eqb_eq. apply indexOf_from_spec. lia.
Qed.

Lemma entering_inside currentTime timingsToAdd :
  forall ref p,
    In p (entering currentTime ref timingsToAdd) ->
    In p (map i_payload timingsToAdd) /\ inside currentTime p = true.
Proof.
  induction timingsToAdd as [|iv rest IH]; intros ref p; simpl; [tauto|].
  destruct (inside currentTime (i_payload iv)) eqn:Hin; simpl.
  - destruct (indexOf ref (i_payload iv) =? -1); simpl.
    + intros [<-|H]; auto. apply IH in H. tauto.
    + intros H. apply IH in H. tauto.
  - intros H. apply IH in H. tauto.
Qed.

Lemma entering_NoDup currentTime timingsToAdd :
  forall ref,
    NoDup (map oid ref) ->
    NoDup (map oid (ref ++ entering currentTime ref timingsToAdd)).
Proof.
  induction timingsToAdd as [|iv rest IH]; intros ref Hnd; simpl.
  - now rewrite app_nil_r.
  - destruct (inside currentTime (i_payload iv) && (indexOf ref (i_payload iv) =? -1))
      eqn:E; auto.
    apply andb_true_iff in E as [_ E]. apply indexOf_absent in E.
    replace (ref ++ i_payload iv :: entering currentTime (ref ++ [i_payload iv]) rest)
      with ((ref ++ [i_payload iv]) ++ entering currentTime (ref ++ [i_payload iv]) rest)
      by now rewrite <- app_assoc.
    apply IH. rewrite map_app. simpl. apply NoDup_app; auto.
    + constructor; [simpl; tauto | constructor].
    + intros x Hx [<-|[]]. tauto.
Qed.

(** Whatever candidate contains [currentTime] is in the array after the
    enter pass, under its identity. *)
Lemma entering_complete currentTime timingsToAdd :
  forall ref iv,
    In iv timingsToAdd ->
    inside currentTime (i_payload iv) = true ->
    In (oid (i_payload iv))
       (map oid (ref ++ entering currentTime ref timingsToAdd)).
Proof.
  induction timingsToAdd as [|iv0 rest IH]; intros ref iv; simpl; [tauto|].
  intros [->|Hin] Hinside.
  - rewrite Hinside. simpl.
    destruct (indexOf ref (i_payload iv) =? -1) eqn:E.
    + rewrite map_app. apply in_or_app. right. simpl. auto.
    + rewrite map_app. apply in_or_app. left.
      destruct (in_dec Nat.eq_dec (oid (i_payload iv)) (map oid ref)) as [H|H]; auto.
      apply indexOf_absent in H. congruence.
  - destruct (inside currentTime (i_payload iv0) && (indexOf ref (i_payload iv0) =? -1)).
    + specialize (IH (ref ++ [i_payload iv0]) iv Hin Hinside).
      now rewrite <- app_assoc in IH.
    + now apply IH.
Qed.

Lemma candidates_incl tree lastTime currentTime :
  incl (candidates tree lastTime currentTime) (intervals tree).
Proof.
  unfold candidates, search_point, search_range. intros iv.
  destruct (lastTime =? currentTime); rewrite filter_In; tauto.
Qed.

Lemma resolvedActive_inside currentTime ref timingsToAdd p :
  In p (resolvedActive currentTime ref timingsToAdd) ->
  inside currentTime p = true.
Proof.
  unfold resolvedActive. rewrite in_app_iff, filter_In.
  intros [[_ H]|H]; auto. now apply entering_inside in H.
Qed.

Lemma NoDup_map_filter {A B} (f : A -> B) (p : A -> bool) l :
  NoDup (map f l) -> NoDup (map f (filter p l)).
Proof.
  induction l as [|a l IH]; simpl; auto.
  intros H. inversion H; subst. destruct (p a); simpl; auto.
  constructor; auto. rewrite in_map_iff in *. intros (x & Hx & Hin).
  apply filter_In in Hin. apply H2. exists x. tauto.
Qed.

Lemma resolvedActive_ok tree lastTime currentTime ref :
  active_ok tree ref ->
  active_ok tree
    (resolvedActive currentTime ref (candidates tree lastTime currentTime)).
Proof.
  intros [Hnd Hincl]. unfold resolvedActive. split.
  - apply entering_NoDup. now apply NoDup_map_filter.
  - intros p. rewrite in_app_iff, filter_In. intros [[H _]|H]; auto.
    apply entering_inside in H as [H _].
    rewrite in_map_iff in *. destruct H as (iv & <- & Hiv).
    exists iv. split; auto. now apply candidates_incl in Hiv.
Qed.

Lemma WF_with_active_log a es k :
  WF k ->
  (forall c, In c (JsObj.keys (_channels k)) -> JsObj.get a c <> None) ->
  (forall c ch l,
      JsObj.get (_channels k) c = Some ch -> JsObj.get a c = Some l ->
      active_ok (tree ch) l) ->
  WF (with_active_log a es k).
Proof.
  intros [H1 H2 H3 H4] Ha Hb. constructor; simpl; auto.
Qed.

Lemma timingsRef_active_ok k c ch :
  WF k -> JsObj.get (_channels k) c = Some ch ->
  active_ok (tree ch) (timingsRef c k).
Proof.
  intros Hwf Hch. unfold timingsRef.
  destruct (JsObj.get (_activeTimingsPerChannel k) c) as [l|] eqn:E.
  - eapply wf_active; eauto.
  - split; [constructor | intros x []].
Qed.

Lemma WF_resolveTimings lastTime currentTime k :
  WF k -> WF (_resolveTimings lastTime currentTime k).
Proof.
  intros Hwf. rewrite resolveTimings_eq by apply Hwf.
  apply WF_with_active_log; auto.
  - intros c Hc. rewrite get_fold_set.
    destruct (in_dec string_dec c (JsObj.keys (_channels k))); [congruence | tauto].
  - intros c ch l Hch. rewrite get_fold_set.
    destruct (in_dec string_dec c (JsObj.keys (_channels k))) as [Hin|Hin].
    + intros [= <-]. unfold chanActive. rewrite Hch.
      apply resolvedActive_ok. now apply timingsRef_active_ok.
    + exfalso. apply Hin. apply get_In_keys. congruence.
Qed.

(** ** Clearing *)

Lemma clear_emits channel l :
  forall k,
    fold_left
      (fun k' timing =>
         emit ("exit:" ++ channel)%string
           (ATiming (timingFromRawData channel timing))
           (emit "exit" (ATiming (timingFromRawData channel timing)) k'))
      l k
    = with_active_log (_activeTimingsPerChannel k) (clearEvents channel l) k.
Proof.
  induction l as [|timing l IH]; intros k; simpl.
  - now rewrite with_active_log_id.
  - rewrite IH, !emit_with, !with_active_log_twice. reflexivity.
Qed.

Lemma clearAllTimingsForChannel_eq channel k :
  _clearAllTimingsForChannel channel k
  = with_active_log (JsObj.set (_activeTimingsPerChannel k) channel [])
      (clearLog k channel) k.
Proof.
  unfold _clearAllTimingsForChannel, clearLog. rewrite clear_emits, set_active_with.
  rewrite with_active_log_twice. simpl. now rewrite app_nil_r.
Qed.

Lemma clear_fold k :
  forall cs a es,
    NoDup cs ->
    (forall c, In c cs -> JsObj.get a c = JsObj.get (_activeTimingsPerChannel k) c) ->
    fold_left (fun k' chan => _clearAllTimingsForChannel chan k') cs
      (with_active_log a es k)
    = with_active_log
        (fold_left (fun a c => JsObj.set a c []) cs a)
        (es ++ flat_map (clearLog k) cs) k.
Proof.
  induction cs as [|c cs IH]; intros a es Hnd H; simpl.
  - now rewrite app_nil_r.
  - inversion Hnd; subst. rewrite clearAllTimingsForChannel_eq.
    rewrite with_active_log_twice. simpl. rewrite IH; auto.
    + unfold clearLog at 1 3. unfold timingsRef. simpl.
      rewrite (H c (or_introl eq_refl)). now rewrite <- app_assoc.
    + intros c' Hc'. rewrite get_set_other by congruence. apply H. now right.
Qed.

Lemma clearAllTimings_eq k :
  NoDup (JsObj.keys (_channels k)) ->
  _clearAllTimings k
  = with_active_log
      (fold_left (fun a c => JsObj.set a c []) (JsObj.keys (_channels k))
         (_activeTimingsPerChannel k))
      (flat_map (clearLog k) (JsObj.keys (_channels k))) k.
Proof.
  intros Hnd. unfold _clearAllTimings.
  rewrite <- (with_active_log_id k) at 2.
  rewrite clear_fold; auto.
Qed.

Lemma WF_clearAllTimings k : WF k -> WF (_clearAllTimings k).
Proof.
  intros Hwf. rewrite clearAllTimings_eq by apply Hwf.
  apply WF_with_active_log; auto.
  - intros c Hc. rewrite (get_fold_set (fun _ => [])).
    destruct (in_dec string_dec c (JsObj.keys (_channels k))); [congruence | tauto].
  - intros c ch l Hch. rewrite (get_fold_set (fun _ => [])).
    destruct (in_dec string_dec c (JsObj.keys (_channels k))) as [Hin|Hin].
    + intros [= <-]. split; [constructor | intros x []].
    + exfalso. apply Hin. apply get_In_keys. congruence.
Qed.

(** ** Well-formedness is kept by every operation *)

Lemma WF_ext k k' :
  _channels k' = _channels k ->
  _activeTimingsPerChannel k' = _activeTimingsPerChannel k ->
  next_oid k' = next_oid k ->
  WF k -> WF k'.
Proof.
  intros E1 E2 E3 [H1 H2 H3 H4]. constructor; unfold active_total in *;
    rewrite ?E1, ?E2, ?E3; auto.
Qed.

Lemma WF_pause k : WF k -> WF (pause k).
Proof.
  intros H. unfold pause. destruct (negb (_playing k)); auto.
  eapply WF_ext; [| | |exact H]; reflexivity.
Qed.

Lemma WF_play k : WF k -> WF (play k).
Proof.
  intros H. unfold play. destruct (_playing k); auto.
  eapply WF_ext with
    (k := if currentTime_ (_timer k) >=? _totalDuration k
          then _clearAllTimings (set_lastTimerCallback None (timer_set 0 k))
          else k); try reflexivity.
  destruct (currentTime_ (_timer k) >=? _totalDuration k); auto.
  apply WF_clearAllTimings. eapply WF_ext; [| | |exact H]; reflexivity.
Qed.

Lemma WF_timerCallback time k : WF k -> WF (_timerCallback time k).
Proof.
  intros H. unfold _timerCallback.
  match goal with |- WF (if _ >? _totalDuration ?k1 then _ else _) =>
    assert (H1 : WF k1) end.
  { destruct (_lastTimerCallback k) as [last|].
    - destruct (time - last >=? _tickResolution k); auto.
      eapply WF_ext with (k := _resolveTimings (last + 1) time
                                 (emit "timeupdate" (ATime time) k));
        try reflexivity.
      apply WF_resolveTimings. eapply WF_ext; [| | |exact H]; reflexivity.
    - apply WF_resolveTimings. eapply WF_ext; [| | |exact H]; reflexivity. }
  match goal with |- WF (if ?b then _ else _) => destruct b end; auto.
  match goal with |- WF (emit _ _ ?k2) =>
    eapply WF_ext with (k := k2); try reflexivity end.
  apply WF_clearAllTimings.
  eapply WF_ext; [| | |exact (WF_pause H1)]; reflexivity.
Qed.

Lemma WF_Timex_tick time k : WF k -> WF (Timex_tick time k).
Proof.
  intros H. unfold Timex_tick. destruct (running (_timer k)); auto.
  apply WF_timerCallback. eapply WF_ext; [| | |exact H]; reflexivity.
Qed.

Lemma WF_currentTime newTime k : WF k -> WF (snd (currentTime newTime k)).
Proof.
  intros H. destruct newTime as [newTime|]; simpl; auto.
  match goal with |- WF (emit _ _ ?k2) =>
    eapply WF_ext with (k := k2); try reflexivity end.
  apply WF_resolveTimings. eapply WF_ext; [| | |exact H]; reflexivity.
Qed.

Lemma WF_playbackRate r k : WF k -> WF (snd (playbackRate r k)).
Proof.
  intros H. destruct r; simpl; auto.
  eapply WF_ext; [| | |exact H]; reflexivity.
Qed.

Lemma tree_ok_mono n m tree : (n <= m)%nat -> tree_ok n tree -> tree_ok m tree.
Proof.
  intros Hle [H1 H2]. split; auto. intros iv Hiv.
  specialize (H2 iv Hiv). intuition lia.
Qed.

Lemma WF_addTimingToTree c timing k :
  WF k -> WF (state_of (_addTimingToTree c timing k)).
Proof.
  intros H. destruct (conflicting timing) eqn:E.
  - now rewrite addTimingToTree_conflicting.
  - rewrite addTimingToTree_valid by auto. unfold state_of, tree_add_in. simpl.
    destruct H as [H1 H2 H3 H4].
    destruct (JsObj.get (_channels k) c) as [ch|] eqn:Hch.
    + assert (Hin : In c (JsObj.keys (_channels k)))
        by (apply get_In_keys; congruence).
      constructor; simpl.
      * now rewrite keys_set_present.
      * intros c'. simpl. rewrite keys_set_present by auto. apply H2.
      * intros c' ch'. destruct (string_dec c' c) as [->|Hne].
        -- rewrite get_set_same. intros [= <-]. simpl.
           destruct (H3 _ _ Hch) as [Hnd Hiv]. unfold tree_add. split; simpl.
           ++ rewrite map_app. simpl. apply NoDup_app; auto.
              ** constructor; [simpl; tauto | constructor].
              ** intros x Hx [<-|[]]. apply in_map_iff in Hx as (iv & Hx & Hiv').
                 specialize (Hiv iv Hiv'). lia.
           ++ intros iv Hiv'. apply in_app_iff in Hiv' as [Hiv'|[<-|[]]].
              ** specialize (Hiv iv Hiv'). intuition lia.
              ** simpl. intuition lia.
        -- rewrite get_set_other by auto. intros Hc'.
           eapply tree_ok_mono; [|eapply H3; eauto]. lia.
      * intros c' ch' l. destruct (string_dec c' c) as [->|Hne].
        -- rewrite get_set_same. intros [= <-] Hl. unfold tree_add. simpl.
           destruct (H4 _ _ _ Hch Hl) as [Hnd Hincl]. split; auto. simpl.
           intros p Hp. rewrite map_app. apply in_or_app. left. now apply Hincl.
        -- rewrite get_set_other by auto. apply H4.
    + constructor; simpl; auto. intros c' ch' Hc'.
      eapply tree_ok_mono; [|eapply H3; eauto]. lia.
Qed.

Lemma WF_forEachM {A} (f : A -> M unit) l :
  (forall a k, WF k -> WF (state_of (f a k))) ->
  forall k, WF k -> WF (state_of (forEachM f l k)).
Proof.
  intros Hf. induction l as [|a l IH]; intros k H; simpl; auto.
  unfold bind. specialize (Hf a k H).
  destruct (f a k) as [[[]|e] k']; simpl in *; auto.
Qed.

Lemma WF_addChannel channel k : WF k -> WF (state_of (addChannel channel k)).
Proof.
  intros H. unfold addChannel.
  destruct (JsObj.get (_channels k) (c_name channel)) eqn:Hget; auto.
  apply WF_forEachM; [intros; now apply WF_addTimingToTree|].
  destruct H as [H1 H2 H3 H4]. constructor; simpl.
  - now apply NoDup_keys_set.
  - intros c Hc. simpl in *. apply In_keys_set in Hc.
    destruct (string_dec c (c_name channel)) as [->|Hne].
    + rewrite get_set_same. congruence.
    + rewrite get_set_other by auto. apply H2. tauto.
  - intros c ch. destruct (string_dec c (c_name channel)) as [->|Hne].
    + rewrite get_set_same. intros [= <-]. simpl. split; [constructor|intros ? []].
    + rewrite get_set_other by auto. apply H3.
  - intros c ch l. destruct (string_dec c (c_name channel)) as [->|Hne].
    + rewrite !get_set_same. intros [= <-] [= <-]. split; [constructor|intros ? []].
    + rewrite !get_set_other by auto. apply H4.
Qed.

Lemma WF_addTiming c timing k : WF k -> WF (state_of (addTiming c timing k)).
Proof.
  intros H. unfold addTiming. destruct (JsObj.get (_channels k) c); auto.
  now apply WF_addTimingToTree.
Qed.

Lemma WF_delete c k :
  WF k -> WF (set_channels (JsObj.delete (_channels k) c) k).
Proof.
  intros [H1 H2 H3 H4].
  assert (Hget : forall c' ch,
             JsObj.get (JsObj.delete (_channels k) c) c' = Some ch ->
             JsObj.get (_channels k) c' = Some ch).
  { intros c' ch. destruct (string_dec c' c) as [->|Hne].
    - rewrite get_delete_same by auto. discriminate.
    - now rewrite get_delete_other. }
  constructor; simpl.
  - now apply NoDup_keys_delete.
  - intros c' Hc'. simpl in *. apply H2. eapply keys_delete_incl; eauto.
  - intros c' ch Hc'. eapply H3; eauto.
  - intros c' ch l Hc'. eapply H4; eauto.
Qed.

Lemma WF_totalDuration duration k :
  WF k -> WF (state_of (totalDuration duration k)).
Proof.
  intros H. destruct duration as [| |d]; simpl; auto.
  unfold bind.
  match goal with |- WF (state_of (match forEachM ?f ?l ?k1 with _ => _ end)) =>
    assert (Hf : WF (state_of (forEachM f l k1))) end.
  { apply WF_forEachM.
    - intros c k' Hk'. destruct (JsObj.get (_channels k') c); auto.
      apply WF_addChannel. now apply WF_delete.
    - eapply WF_ext; [| | |exact H]; reflexivity. }
  match goal with |- WF (state_of (match ?r with _ => _ end)) =>
    destruct r as [[[]|e] k'] end; auto.
Qed.

Lemma WF_empty totalDuration : WF (empty_engine totalDuration).
Proof.
  constructor; simpl.
  - constructor.
  - intros c [].
  - discriminate.
  - discriminate.
Qed.

(** An engine that the constructor returns is well formed. *)
Lemma WF_Kinetophone_new channels totalDuration options k :
  Kinetophone_new channels totalDuration options = Return k -> WF k.
Proof.
  unfold Kinetophone_new. destruct totalDuration as [| |d]; try discriminate.
  match goal with |- context [forEachM addChannel ?l ?k0] =>
    assert (H : WF (state_of (forEachM addChannel l k0))) end.
  { apply WF_forEachM; [intros; now apply WF_addChannel|].
    eapply WF_ext; [| | |exact (WF_empty d)]; reflexivity. }
  match goal with |- context [forEachM addChannel ?l ?k0] =>
    destruct (forEachM addChannel l k0) as [[[]|e] k'] end;
    [intros [= <-]; auto | discriminate].
Qed.

Lemma WF_constructed channels totalDuration : WF (constructed channels totalDuration).
Proof.
  unfold constructed.
  destruct (Kinetophone_new (Some channels) (Num totalDuration) defaults) eqn:E.
  - eapply WF_Kinetophone_new; eauto.
  - apply WF_empty.
Qed.

(** ** Seeking and [getTimingsAt] *)

Lemma getTimingsAt_each time chs cs :
  forall acc k,
    _channels k = chs ->
    (forall c, In c cs -> In c (JsObj.keys chs)) ->
    exists res k',
      _findTimings_each
        (fun rawTiming =>
           (time >=? p_start (i_payload rawTiming))
           && (time <? p_end (i_payload rawTiming)))
        (fun tree => (QPoint time, search_point tree time)) cs acc k
      = (Return res, k')
      /\ forall c,
           JsObj.get res c
           = if in_dec string_dec c cs
             then option_map (fun ch => timingsAt c (tree ch) time) (JsObj.get chs c)
             else JsObj.get acc c.
Proof.
  induction cs as [|c0 cs IH]; intros acc k Hk Hin.
  - exists acc, k. split; auto.
  - simpl. rewrite Hk.
    assert (H0 : In c0 (JsObj.keys chs)) by (apply Hin; now left).
    apply get_In_keys in H0.
    destruct (JsObj.get chs c0) as [ch|] eqn:Hch; [|congruence].
    edestruct IH as (res & k' & Heq & Hres);
      [| |rewrite Heq; exists res, k'; split; [reflexivity|]].
    + exact Hk.
    + intros c Hc. apply Hin. now right.
    + intros c. rewrite Hres.
      destruct (in_dec string_dec c cs) as [H1|H1];
        destruct (string_dec c0 c) as [->|Hne]; auto.
      * rewrite get_set_same, Hch. reflexivity.
      * now rewrite get_set_other by congruence.
Qed.

(** [getTimingsAt(time)] over all channels succeeds and lists, for every
    channel, the timings of its tree that contain [time]. *)
Lemma getTimingsAt_all time k :
  exists res k',
    getTimingsAt time None k = (Return res, k')
    /\ forall c ch,
         JsObj.get (_channels k) c = Some ch ->
         JsObj.get res c = Some (timingsAt c (tree ch) time).
Proof.
  unfold getTimingsAt, _findTimings.
  destruct (@getTimingsAt_each time (_channels k) (JsObj.keys (_channels k)) [] k)
    as (res & k' & Heq & Hres); auto.
  exists res, k'. split; [exact Heq|].
  intros c ch Hch. rewrite Hres, Hch.
  destruct (in_dec string_dec c (JsObj.keys (_channels k))) as [H|H]; auto.
  exfalso. apply H. apply get_In_keys. congruence.
Qed.

Lemma tree_oid_inj bound tree p q :
  tree_ok bound tree ->
  In p (map i_payload (intervals tree)) ->
  In q (map i_payload (intervals tree)) ->
  oid p = oid q -> p = q.
Proof.
  intros [Hnd _]. rewrite <- (map_map i_payload oid) in Hnd.
  induction (map i_payload (intervals tree)) as [|x l IH]; simpl; [tauto|].
  simpl in Hnd. inversion Hnd; subst.
  intros [->|Hp] [->|Hq] E; auto.
  - exfalso. apply H1. rewrite E. now apply in_map.
  - exfalso. apply H1. rewrite <- E. now apply in_map.
Qed.

Lemma inside_point_found bound tree iv time :
  tree_ok bound tree -> In iv (intervals tree) ->
  inside time (i_payload iv) = true ->
  In iv (search_point tree time).
Proof.
  intros [_ H] Hiv Hin. unfold search_point. apply filter_In. split; auto.
  destruct (H iv Hiv) as (-> & -> & _). unfold inside in Hin.
  apply andb_true_iff in Hin as [H1 H2]. rewrite H1. simpl.
  apply Z.ltb_lt in H2. apply Z.leb_le. lia.
Qed.

(** A point resolution leaves in the array exactly the payloads of the
    tree that contain the time. *)
Lemma resolvedActive_point bound tree time ref :
  tree_ok bound tree -> active_ok tree ref ->
  Permutation
    (resolvedActive time ref (search_point tree time))
    (map i_payload
       (filter (fun iv => inside time (i_payload iv)) (search_point tree time))).
Proof.
  intros Htree Href.
  assert (Hok : active_ok tree (resolvedActive time ref (candidates tree time time)))
    by now apply resolvedActive_ok.
  unfold candidates in Hok. rewrite Z.eqb_refl in Hok.
  destruct Hok as [Hnd Hincl].
  apply NoDup_Permutation.
  - eapply NoDup_map_inv; eauto.
  - destruct Htree as [Hnd' _].
    apply NoDup_map_inv with (f := oid). rewrite map_map.
    apply NoDup_map_filter. unfold search_point. now apply NoDup_map_filter.
  - intros p. split.
    + intros Hp. pose proof (resolvedActive_inside _ _ _ _ Hp) as Hin.
      apply Hincl in Hp. apply in_map_iff in Hp as (iv & <- & Hiv).
      apply in_map. apply filter_In. split; auto.
      eapply inside_point_found; eauto.
    + intros Hp. apply in_map_iff in Hp as (iv & <- & Hiv).
      apply filter_In in Hiv as [Hiv Hin].
      pose proof (entering_complete time _ (filter (inside time) ref) _ Hiv Hin) as H.
      apply in_map_iff in H as (q & E & Hq).
      fold (resolvedActive time ref (search_point tree time)) in Hq.
      replace (i_payload iv) with q; auto.
      eapply tree_oid_inj; eauto.
      apply in_map. unfold search_point in Hiv. now apply filter_In in Hiv.
Qed.

Lemma timingsAt_inside c tree time :
  timingsAt c tree time
  = map (timingFromRawData c)
      (map i_payload
         (filter (fun iv => inside time (i_payload iv)) (search_point tree time))).
Proof.
  unfold timingsAt. rewrite map_map. f_equal. apply filter_ext.
  intros iv. apply enter_test_inside.
Qed.

(** The active arrays right after a resolution of a well-formed engine. *)
Lemma timingsRef_resolveTimings lastTime currentTime k c ch :
  WF k -> JsObj.get (_channels k) c = Some ch ->
  timingsRef c (_resolveTimings lastTime currentTime k)
  = resolvedActive currentTime (timingsRef c k)
      (candidates (tree ch) lastTime currentTime).
Proof.
  intros Hwf Hch. rewrite resolveTimings_eq by apply Hwf.
  unfold timingsRef at 1. simpl. rewrite get_fold_set.
  destruct (in_dec string_dec c (JsObj.keys (_channels k))) as [H|H].
  - unfold chanActive. now rewrite Hch.
  - exfalso. apply H. apply get_In_keys. congruence.
Qed.

Lemma currentTime_seek t k :
  snd (currentTime (Some t) k)
  = emit "seek" (ATime (clamped (_totalDuration k) t))
      (_resolveTimings (clamped (_totalDuration k) t) (clamped (_totalDuration k) t)
         (emit "timeupdate" (ATime (clamped (_totalDuration k) t))
            (timer_set (clamped (_totalDuration k) t)
               (emit "seeking" (ATime (clamped (_totalDuration k) t))
                  (set_lastTimerCallback (Some t) k))))).
Proof. reflexivity. Qed.

(** C10, as stated, fails for a time outside [0, totalDuration]: after
    [seek(-2)] the timing [0, 5) is active (the seek resolved at 0), and
    [getTimingsAt(-2)] lists nothing. *)
Lemma C10_counterexample :
  let k := snd (currentTime (Some (-2)) early_engine) in
  map (timingFromRawData "c") (timingsRef "c" k)
  = [mkProjection "c" 0 None (Some 5) None]
  /\ outcome_of (getTimingsAt (-2) None k) = Return [("c", [])].
Proof. split; vm_compute; reflexivity. Qed.

(** C10, amended: right after [seek(t)] the active set of every channel
    is, up to order, what [getTimingsAt] lists for that channel at [t]
    clamped into [0, totalDuration] (so at [t] itself when
    [0 <= t <= totalDuration]). *)
Theorem C10_seek_determinism :
  forall k t,
    WF k ->
    let k' := snd (currentTime (Some t) k) in
    let t' := clamped (_totalDuration k) t in
    exists res,
      outcome_of (getTimingsAt t' None k') = Return res
      /\ (forall c, In c (JsObj.keys (_channels k')) ->
            exists found,
              JsObj.get res c = Some found
              /\ Permutation (map (timingFromRawData c) (timingsRef c k')) found)
      /\ (0 <= t <= _totalDuration k -> t' = t).
Proof.
  intros k t Hwf k' t'.
  destruct (getTimingsAt_all t' k') as (res & k'' & Heq & Hres).
  exists res. rewrite Heq. split; [reflexivity|]. split.
  - intros c Hc. apply get_In_keys in Hc.
    destruct (JsObj.get (_channels k') c) as [ch|] eqn:Hch; [|congruence].
    exists (timingsAt c (tree ch) t'). split; [now apply Hres|].
    rewrite timingsAt_inside. apply Permutation_map.
    subst k'. rewrite currentTime_seek in Hch |- *. fold t' in Hch |- *.
    set (k1 := emit "timeupdate" (ATime t')
                 (timer_set t' (emit "seeking" (ATime t')
                    (set_lastTimerCallback (Some t) k)))) in *.
    assert (Hwf1 : WF k1) by (eapply WF_ext; [| | |exact Hwf]; reflexivity).
    change (timingsRef c (emit "seek" (ATime t') (_resolveTimings t' t' k1)))
      with (timingsRef c (_resolveTimings t' t' k1)).
    assert (Hch1 : JsObj.get (_channels k1) c = Some ch).
    { rewrite <- Hch. rewrite resolveTimings_eq by apply Hwf1. reflexivity. }
    rewrite (timingsRef_resolveTimings _ _ _ Hwf1 Hch1).
    unfold candidates. rewrite Z.eqb_refl.
    eapply resolvedActive_point.
    + eapply wf_trees; eauto.
    + now apply timingsRef_active_ok.
  - intros Ht. subst t'. unfold clamped.
    destruct (Z.ltb_spec t 0); [lia|].
    destruct (t >? _totalDuration k) eqn:E; auto.
    apply Z.gtb_lt in E. lia.
Qed.

Lemma C10_seek_determinism_witness :
  exists res,
    outcome_of (getTimingsAt (clamped 100 (-2)) None
                  (snd (currentTime (Some (-2)) early_engine))) = Return res
    /\ (forall c, In c ["c"] ->
          exists found,
            JsObj.get res c = Some found
            /\ Permutation
                 (map (timingFromRawData c)
                    (timingsRef c (snd (currentTime (Some (-2)) early_engine))))
                 found).
Proof.
  destruct (C10_seek_determinism (-2) (WF_constructed _ 100 : WF early_engine))
    as (res & H1 & H2 & _).
  exists res. split; [exact H1 | exact H2].
Defined.

(** ** The first tick *)

Lemma timerCallback_split time k :
  _timerCallback time k = rollover time (tick_resolve time k).
Proof. reflexivity. Qed.

Lemma filter_filter_impl {A} (p q : A -> bool) l :
  (forall x, In x l -> p x = true -> q x = true) ->
  filter p (filter q l) = filter p l.
Proof.
  induction l as [|a l IH]; intros H; simpl; auto.
  destruct (q a) eqn:Eq; simpl.
  - destruct (p a); rewrite IH; auto; intros; apply H; simpl; auto.
  - destruct (p a) eqn:Ep.
    + rewrite H in Eq; simpl; auto. discriminate.
    + apply IH. intros; apply H; simpl; auto.
Qed.

Lemma filter_flat_map {A B} (p : B -> bool) (g : A -> list B) l :
  filter p (flat_map g l) = flat_map (fun x => filter p (g x)) l.
Proof.
  induction l as [|a l IH]; simpl; auto. now rewrite filter_app, IH.
Qed.

(** The enter pass only looks at the candidates that contain the time. *)
Lemma entering_filter currentTime l :
  forall ref,
    entering currentTime ref
      (filter (fun iv => inside currentTime (i_payload iv)) l)
    = entering currentTime ref l.
Proof.
  induction l as [|iv l IH]; intros ref; simpl; auto.
  destruct (inside currentTime (i_payload iv)) eqn:E; simpl; [rewrite E|]; simpl.
  - destruct (indexOf ref (i_payload iv) =? -1); now rewrite IH.
  - apply IH.
Qed.

Lemma candidates_inside bound tree lastTime currentTime :
  tree_ok bound tree -> lastTime <= currentTime ->
  filter (fun iv => inside currentTime (i_payload iv))
    (candidates tree lastTime currentTime)
  = filter (fun iv => inside currentTime (i_payload iv)) (intervals tree).
Proof.
  intros [_ H] Hle. unfold candidates, search_point, search_range.
  destruct (lastTime =? currentTime); apply filter_filter_impl;
    intros iv Hiv Hin; destruct (H iv Hiv) as (-> & -> & _);
    unfold inside in Hin; apply andb_true_iff in Hin as [H1 H2];
    apply Z.leb_le in H1; apply Z.ltb_lt in H2;
    apply andb_true_iff; split; apply Z.leb_le; lia.
Qed.

(** Over a well-formed tree the window [lastTime, currentTime] and the
    point [currentTime] make the same timings enter. *)
Lemma entering_window bound tree lastTime currentTime ref :
  tree_ok bound tree -> lastTime <= currentTime ->
  entering currentTime ref (candidates tree lastTime currentTime)
  = entering currentTime ref (candidates tree currentTime currentTime).
Proof.
  intros Htree Hle.
  rewrite <- entering_filter, (candidates_inside Htree Hle).
  rewrite <- (entering_filter currentTime (candidates tree currentTime currentTime)).
  now rewrite (candidates_inside Htree (Z.le_refl _)).
Qed.

Lemma chanActive_window k lastTime currentTime c :
  WF k -> lastTime <= currentTime ->
  chanActive k lastTime currentTime c = chanActive k currentTime currentTime c.
Proof.
  intros Hwf Hle. unfold chanActive.
  destruct (JsObj.get (_channels k) c) as [ch|] eqn:Hch; auto.
  unfold resolvedActive. f_equal.
  eapply entering_window; eauto. eapply wf_trees; eauto.
Qed.

Lemma exitEvents_no_search c t l :
  filter is_search (exitEvents c t l) = [].
Proof.
  induction l as [|p l IH]; simpl; auto.
  rewrite filter_app, IH, app_nil_r. destruct (inside t p); reflexivity.
Qed.

Lemma enterEvents_no_search c l : filter is_search (enterEvents c l) = [].
Proof. induction l as [|p l IH]; simpl; auto. Qed.

Lemma exitEvents_all_kept c t l :
  filter (fun e => negb (is_search e)) (exitEvents c t l) = exitEvents c t l.
Proof.
  induction l as [|p l IH]; simpl; auto.
  rewrite filter_app, IH. destruct (inside t p); reflexivity.
Qed.

Lemma enterEvents_all_kept c l :
  filter (fun e => negb (is_search e)) (enterEvents c l) = enterEvents c l.
Proof. induction l as [|p l IH]; simpl; auto. now rewrite IH. Qed.

Lemma chanLog_window k lastTime currentTime c :
  WF k -> lastTime <= currentTime ->
  filter (fun e => negb (is_search e)) (chanLog k lastTime currentTime c)
  = filter (fun e => negb (is_search e)) (chanLog k currentTime currentTime c).
Proof.
  intros Hwf Hle. unfold chanLog.
  destruct (JsObj.get (_channels k) c) as [ch|] eqn:Hch; auto.
  unfold resolveLog. simpl.
  erewrite entering_window; eauto. eapply wf_trees; eauto.
Qed.

Lemma chanLog_searches k lastTime currentTime c ch :
  JsObj.get (_channels k) c = Some ch ->
  filter is_search (chanLog k lastTime currentTime c)
  = [TreeSearch c (queryOf lastTime currentTime)].
Proof.
  intros Hch. unfold chanLog, resolveLog. rewrite Hch. simpl.
  now rewrite filter_app, exitEvents_no_search, enterEvents_no_search.
Qed.

Lemma fold_set_ext {V} (f g : string -> V) cs :
  (forall c, f c = g c) ->
  forall a : JsObj.t V,
    fold_left (fun a c => JsObj.set a c (f c)) cs a
    = fold_left (fun a c => JsObj.set a c (g c)) cs a.
Proof.
  intros H. induction cs as [|c cs IH]; intros a; simpl; auto.
  now rewrite H, IH.
Qed.

(** What a resolution lets observe does not depend on where its window
    starts. *)
Lemma resolveTimings_window k lastTime currentTime :
  WF k -> lastTime <= currentTime ->
  without_searches (_resolveTimings lastTime currentTime k)
  = without_searches (_resolveTimings currentTime currentTime k).
Proof.
  intros Hwf Hle. rewrite !resolveTimings_eq by apply Hwf.
  unfold without_searches, with_active_log. simpl.
  rewrite !filter_app, !filter_flat_map.
  f_equal.
  - apply fold_set_ext. intros c. now apply chanActive_window.
  - f_equal. apply flat_map_ext. intros c. now apply chanLog_window.
Qed.

Lemma resolveTimings_searches k lastTime currentTime :
  WF k ->
  filter is_search (log (_resolveTimings lastTime currentTime k))
  = filter is_search (log k)
    ++ map (fun c => TreeSearch c (queryOf lastTime currentTime))
         (JsObj.keys (_channels k)).
Proof.
  intros Hwf. rewrite resolveTimings_eq by apply Hwf. simpl.
  rewrite filter_app, filter_flat_map. f_equal.
  assert (H : forall c, In c (JsObj.keys (_channels k)) ->
                        JsObj.get (_channels k) c <> None)
    by (intros c; apply get_In_keys).
  induction (JsObj.keys (_channels k)) as [|c cs IH]; simpl; auto.
  destruct (JsObj.get (_channels k) c) as [ch|] eqn:Hch.
  - rewrite (chanLog_searches _ _ _ _ Hch). simpl. f_equal.
    apply IH. intros; apply H; simpl; auto.
  - exfalso. apply (H c); simpl; auto.
Qed.

(** C2, as stated, fails: on the first tick at 5 the channel is resolved
    with the range query [0, 5], not with the point query at 5. *)
Lemma C2_counterexample :
  log (_timerCallback 5 short_engine)
  = [Emit "timeupdate" (ATime 5); TreeSearch "c" (QRange 0 5)]
  /\ log (rollover 5 (first_tick_as_specified 5 short_engine))
     = [Emit "timeupdate" (ATime 5); TreeSearch "c" (QPoint 5)]
  /\ _timerCallback 5 short_engine
     <> rollover 5 (first_tick_as_specified 5 short_engine).
Proof. repeat split; vm_compute; try reflexivity. discriminate. Qed.

(** C2, amended: on a tick at [t >= 0] while [_lastTimerCallback] is
    unset, the callback emits [timeupdate(t)], sets
    [_lastTimerCallback = t] and resolves every channel over the window
    from 0 to [t]: one search per channel, over the range [0, t] (the
    point 0 when [t = 0]).  The events emitted and the active sets that
    result are those of a point resolution at [t]. *)
Theorem C2_first_tick :
  forall k t,
    WF k -> _lastTimerCallback k = None -> 0 <= t ->
    let k1 :=
      _resolveTimings 0 t
        (set_lastTimerCallback (Some t) (emit "timeupdate" (ATime t) k)) in
    _timerCallback t k = rollover t k1
    /\ _lastTimerCallback k1 = Some t
    /\ filter is_search (log k1)
       = filter is_search (log k)
         ++ map (fun c => TreeSearch c (if 0 =? t then QPoint t else QRange 0 t))
              (JsObj.keys (_channels k))
    /\ without_searches k1 = without_searches (first_tick_as_specified t k).
Proof.
  intros k t Hwf Hlast Ht k1.
  assert (Hwf0 : WF (set_lastTimerCallback (Some t) (emit "timeupdate" (ATime t) k)))
    by (eapply WF_ext; [| | |exact Hwf]; reflexivity).
  assert (Hwf1 : WF (emit "timeupdate" (ATime t) k))
    by (eapply WF_ext; [| | |exact Hwf]; reflexivity).
  repeat apply conj.
  - rewrite timerCallback_split. unfold tick_resolve. now rewrite Hlast.
  - subst k1. rewrite resolveTimings_eq by apply Hwf0. reflexivity.
  - subst k1. rewrite resolveTimings_searches by auto. simpl.
    rewrite filter_app. simpl. now rewrite app_nil_r.
  - subst k1. rewrite resolveTimings_window by auto.
    unfold first_tick_as_specified.
    rewrite !resolveTimings_eq by (apply Hwf0 || apply Hwf1). reflexivity.
Qed.

Lemma C2_first_tick_witness :
  _timerCallback 5 short_engine
  = rollover 5
      (_resolveTimings 0 5
         (set_lastTimerCallback (Some 5)
            (emit "timeupdate" (ATime 5) short_engine)))
  /\ without_searches
       (_resolveTimings 0 5
          (set_lastTimerCallback (Some 5)
             (emit "timeupdate" (ATime 5) short_engine)))
     = without_searches (first_tick_as_specified 5 short_engine).
Proof.
  destruct (@C2_first_tick short_engine 5 (WF_constructed _ 100)
              ltac:(vm_compute; reflexivity) ltac:(lia)) as (H1 & _ & _ & H4).
  split; [exact H1 | exact H4].
Defined.

(** ** The invariant of the active sets *)

Lemma inside_bounds r p : inside r p = true <-> p_start p <= r < p_end p.
Proof.
  unfold inside. rewrite andb_true_iff, Z.leb_le, Z.ltb_lt. tauto.
Qed.

Lemma active_kept_refl k : active_kept k k.
Proof. split; auto. Qed.

Lemma active_kept_trans k1 k2 k3 :
  active_kept k1 k2 -> active_kept k2 k3 -> active_kept k1 k3.
Proof.
  intros [T1 H1] [T2 H2]. split; [congruence|].
  intros c l Hc Hl. destruct (H2 c l Hc Hl) as [->|[Hc' Hl']]; auto.
Qed.

Lemma active_kept_forEachM {A} (f : A -> M unit) l :
  (forall a k, active_kept k (state_of (f a k))) ->
  forall k, active_kept k (state_of (forEachM f l k)).
Proof.
  intros Hf. induction l as [|a l IH]; intros k; simpl.
  - apply active_kept_refl.
  - unfold bind. specialize (Hf a k).
    destruct (f a k) as [[[]|e] k']; simpl in *; auto.
    eapply active_kept_trans; eauto.
Qed.

Lemma active_kept_addTimingToTree c timing k :
  active_kept k (state_of (_addTimingToTree c timing k)).
Proof.
  destruct (conflicting timing) eqn:E.
  - rewrite addTimingToTree_conflicting by auto. apply active_kept_refl.
  - rewrite addTimingToTree_valid by auto. unfold state_of, tree_add_in. simpl.
    destruct (JsObj.get (_channels k) c) as [ch|] eqn:Hch; split; simpl; auto.
    intros c' l. rewrite keys_set_present; auto.
    apply get_In_keys. congruence.
Qed.

Lemma active_kept_addChannel channel k :
  active_kept k (state_of (addChannel channel k)).
Proof.
  unfold addChannel.
  destruct (JsObj.get (_channels k) (c_name channel)) eqn:Hget;
    [apply active_kept_refl|].
  eapply active_kept_trans;
    [|apply active_kept_forEachM; intros; apply active_kept_addTimingToTree].
  split; simpl; auto. intros c l Hc.
  apply In_keys_set in Hc. destruct (string_dec c (c_name channel)) as [->|Hne].
  - rewrite get_set_same. intros [= <-]. auto.
  - rewrite get_set_other by auto. right. tauto.
Qed.

Lemma active_kept_addTiming c timing k :
  active_kept k (state_of (addTiming c timing k)).
Proof.
  unfold addTiming. destruct (JsObj.get (_channels k) c).
  - apply active_kept_addTimingToTree.
  - apply active_kept_refl.
Qed.

Lemma active_kept_totalDuration duration k :
  active_kept k (state_of (totalDuration duration k)).
Proof.
  destruct duration as [| |d]; simpl; try apply active_kept_refl.
  unfold bind.
  match goal with |- active_kept k (state_of (match forEachM ?f ?l ?k1 with _ => _ end)) =>
    assert (Hf : active_kept k (state_of (forEachM f l k1))) end.
  { eapply active_kept_trans; [|apply active_kept_forEachM].
    - split; simpl; auto.
    - intros c k'. destruct (JsObj.get (_channels k') c);
        [|apply active_kept_refl].
      eapply active_kept_trans; [|apply active_kept_addChannel].
      split; simpl; auto. intros c' l Hc' Hl. right. split; auto.
      eapply keys_delete_incl; eauto. }
  match goal with |- active_kept k (state_of (match ?r with _ => _ end)) =>
    destruct r as [[[]|e] k'] end; auto.
Qed.

Lemma active_inv_kept k k' :
  WF k' -> active_kept k k' -> active_inv k -> active_inv k'.
Proof.
  intros Hwf [Ht Hk] [Hnd (r & Hr & Hat)]. split.
  - intros c l Hc Hl. apply get_In_keys in Hc.
    destruct (JsObj.get (_channels k') c) as [ch|] eqn:Hch; [|congruence].
    eapply wf_active; eauto.
  - exists r. rewrite Ht. split; auto.
    intros c l p Hc Hl Hp. destruct (Hk c l Hc Hl) as [->|[Hc' Hl']].
    + destruct Hp.
    + eapply Hat; eauto.
Qed.

Lemma active_nodup_WF k : WF k -> active_nodup k.
Proof.
  intros Hwf c l Hc Hl. apply get_In_keys in Hc.
  destruct (JsObj.get (_channels k) c) as [ch|] eqn:Hch; [|congruence].
  eapply wf_active; eauto.
Qed.

Lemma active_at_resolveTimings lastTime currentTime k :
  WF k -> active_at currentTime (_resolveTimings lastTime currentTime k).
Proof.
  intros Hwf c l p. rewrite resolveTimings_eq by apply Hwf. simpl.
  intros Hc. rewrite get_fold_set.
  destruct (in_dec string_dec c (JsObj.keys (_channels k))); [|tauto].
  intros [= <-] Hp. apply inside_bounds. unfold chanActive in Hp.
  apply get_In_keys in Hc.
  destruct (JsObj.get (_channels k) c); [|congruence].
  eapply resolvedActive_inside; eauto.
Qed.

Lemma active_at_clearAllTimings r k :
  WF k -> active_at r (_clearAllTimings k).
Proof.
  intros Hwf c l p. rewrite clearAllTimings_eq by apply Hwf. simpl.
  intros Hc. rewrite (get_fold_set (fun _ => [])).
  destruct (in_dec string_dec c (JsObj.keys (_channels k))); [|tauto].
  intros [= <-] [].
Qed.

Lemma active_at_ext r k k' :
  _channels k' = _channels k ->
  _activeTimingsPerChannel k' = _activeTimingsPerChannel k ->
  active_at r k -> active_at r k'.
Proof. unfold active_at. intros -> ->. auto. Qed.

Lemma timer_resolveTimings lastTime currentTime k :
  WF k -> _timer (_resolveTimings lastTime currentTime k) = _timer k.
Proof. intros Hwf. now rewrite resolveTimings_eq by apply Hwf. Qed.

Lemma timer_clearAllTimings k : WF k -> _timer (_clearAllTimings k) = _timer k.
Proof. intros Hwf. now rewrite clearAllTimings_eq by apply Hwf. Qed.

Lemma totalDuration_resolveTimings lastTime currentTime k :
  WF k -> _totalDuration (_resolveTimings lastTime currentTime k) = _totalDuration k.
Proof. intros Hwf. now rewrite resolveTimings_eq by apply Hwf. Qed.

(** After the last statement of [_timerCallback]: the active timings
    contain the clock time if they did before. *)
Lemma rollover_active_at time k :
  WF k ->
  active_at (currentTime_ (_timer k)) k ->
  active_at (currentTime_ (_timer (rollover time k))) (rollover time k).
Proof.
  intros Hwf H. unfold rollover. destruct (time >? _totalDuration k); auto.
  eapply active_at_ext; [| |apply active_at_clearAllTimings]; try reflexivity.
  eapply WF_ext; [| | |exact (WF_pause Hwf)]; reflexivity.
Qed.

Lemma rollover_cases time k :
  WF k ->
  rollover time k = k
  \/ (currentTime_ (_timer (rollover time k)) = 0
      /\ forall r, active_at r (rollover time k)).
Proof.
  intros Hwf. unfold rollover. destruct (time >? _totalDuration k); auto.
  right.
  assert (Hwf' : WF (set_lastTimerCallback None (timer_set 0 (pause k))))
    by (eapply WF_ext; [| | |exact (WF_pause Hwf)]; reflexivity).
  split.
  - simpl. now rewrite timer_clearAllTimings.
  - intros r. eapply active_at_ext; [| |apply active_at_clearAllTimings];
      try reflexivity; auto.
Qed.

Lemma WF_tick_resolve time k : WF k -> WF (tick_resolve time k).
Proof.
  intros H. unfold tick_resolve. destruct (_lastTimerCallback k) as [last|].
  - destruct (time - last >=? _tickResolution k); auto.
    eapply WF_ext with (k := _resolveTimings (last + 1) time
                               (emit "timeupdate" (ATime time) k));
      try reflexivity.
    apply WF_resolveTimings. eapply WF_ext; [| | |exact H]; reflexivity.
  - apply WF_resolveTimings. eapply WF_ext; [| | |exact H]; reflexivity.
Qed.

Lemma timer_tick_resolve time k : WF k -> _timer (tick_resolve time k) = _timer k.
Proof.
  intros H. unfold tick_resolve. destruct (_lastTimerCallback k) as [last|].
  - destruct (time - last >=? _tickResolution k); auto. simpl.
    rewrite timer_resolveTimings; auto.
    eapply WF_ext; [| | |exact H]; reflexivity.
  - rewrite timer_resolveTimings; auto.
    eapply WF_ext; [| | |exact H]; reflexivity.
Qed.

Lemma tick_resolve_batched time k :
  processes time k = false -> tick_resolve time k = k.
Proof.
  unfold processes, tick_resolve. destruct (_lastTimerCallback k); [|discriminate].
  now intros ->.
Qed.

Lemma tick_resolve_processed time k :
  WF k -> processes time k = true -> active_at time (tick_resolve time k).
Proof.
  intros H. unfold processes, tick_resolve.
  destruct (_lastTimerCallback k) as [last|].
  - intros ->.
    eapply active_at_ext with (k := _resolveTimings (last + 1) time
                                      (emit "timeupdate" (ATime time) k));
      try reflexivity.
    apply active_at_resolveTimings. eapply WF_ext; [| | |exact H]; reflexivity.
  - intros _. apply active_at_resolveTimings.
    eapply WF_ext; [| | |exact H]; reflexivity.
Qed.

(** The callback of the clock, whatever called it: the active timings
    contain a time that the clock has reached. *)
Lemma timerCallback_active time k :
  WF k ->
  (exists r, r <= currentTime_ (_timer k) /\ active_at r k) ->
  time <= currentTime_ (_timer k) ->
  exists r, r <= currentTime_ (_timer (_timerCallback time k))
            /\ active_at r (_timerCallback time k).
Proof.
  intros Hwf (r & Hr & Hat) Htime. rewrite timerCallback_split.
  pose proof (WF_tick_resolve time Hwf) as Hwf1.
  destruct (rollover_cases time Hwf1) as [->|[H0 Hall]].
  - rewrite timer_tick_resolve by auto.
    destruct (processes time k) eqn:E.
    + exists time. split; auto. now apply tick_resolve_processed.
    + rewrite tick_resolve_batched by auto. eauto.
  - exists 0. rewrite H0. split; [lia | apply Hall].
Qed.

(** C9, as stated, fails: after a tick that is batched away the clock is
    at 16 and the timing [0, 5) is still in the active set. *)
Lemma batched_engine_fields :
  _activeTimingsPerChannel batched_engine
  = [("c", [mkPayload 0 0 5 (mkTiming 0 (Some 5) None None)])]
  /\ currentTime_ (_timer batched_engine) = 16
  /\ JsObj.keys (_channels batched_engine) = ["c"].
Proof. repeat split; vm_compute; reflexivity. Qed.

Lemma C9_counterexample :
  currentTime_ (_timer batched_engine) = 16
  /\ timingsRef "c" batched_engine
     = [mkPayload 0 0 5 (mkTiming 0 (Some 5) None None)]
  /\ ~ active_inv_as_specified batched_engine.
Proof.
  destruct batched_engine_fields as (E & T & K).
  split; [exact T|]. split; [unfold timingsRef; now rewrite E|].
  intros [_ H]. unfold active_at in H. rewrite E, T, K in H.
  specialize (H "c" _ (mkPayload 0 0 5 (mkTiming 0 (Some 5) None None))
                (or_introl eq_refl) eq_refl (or_introl eq_refl)).
  simpl in H. lia.
Qed.

(** C9, amended: every operation keeps this invariant: the active set of
    a channel holds no timing twice, and there is a time [r], not after
    the clock time, with [start <= r < end] for every timing in an active
    set ([r] is the time of the last resolution).  Right after an
    operation that resolves (a seek, a tick that is not batched away)
    every active timing satisfies [start <= clockTime < end]. *)
Theorem C9_active_invariant :
  forall k op,
    WF k -> active_inv k -> admissible op k ->
    active_inv (step op k)
    /\ (resolves op k = true -> active_inv_as_specified (step op k)).
Proof.
  intros k op Hwf Hinv Hadm.
  assert (Hkept : forall k', WF k' -> active_kept k k' -> active_inv k'
                  /\ (false = true -> active_inv_as_specified k')).
  { intros k' Hwf' Hk. split; [|discriminate]. eapply active_inv_kept; eauto. }
  destruct op as [channel|c timing|duration| | |newTime|r|time|]; simpl.
  - apply Hkept; [apply WF_addChannel | apply active_kept_addChannel]; auto.
  - apply Hkept; [apply WF_addTiming | apply active_kept_addTiming]; auto.
  - apply Hkept; [apply WF_totalDuration | apply active_kept_totalDuration]; auto.
  - split; [|discriminate]. split; [apply active_nodup_WF, WF_play; auto|].
    destruct Hinv as [_ (r & Hr & Hat)]. unfold play.
    destruct (_playing k); [eauto|].
    destruct (currentTime_ (_timer k) >=? _totalDuration k).
    + assert (Hwf' : WF (set_lastTimerCallback None (timer_set 0 k)))
        by (eapply WF_ext; [| | |exact Hwf]; reflexivity).
      exists 0. split.
      * simpl. rewrite timer_clearAllTimings by auto. simpl. lia.
      * eapply active_at_ext; [| |apply (active_at_clearAllTimings 0 Hwf')];
          reflexivity.
    + exists r. split; auto.
  - split; [|discriminate]. split; [apply active_nodup_WF, WF_pause; auto|].
    destruct Hinv as [_ (r & Hr & Hat)]. unfold pause.
    destruct (negb (_playing k)); [eauto|]. exists r. split; auto.
  - assert (Hwf' : WF (snd (currentTime (Some newTime) k)))
      by now apply WF_currentTime.
    assert (Hat : active_inv_as_specified (snd (currentTime (Some newTime) k))).
    { split; [now apply active_nodup_WF|]. rewrite currentTime_seek.
      set (t' := clamped (_totalDuration k) newTime).
      set (k1 := emit "timeupdate" (ATime t')
                   (timer_set t' (emit "seeking" (ATime t')
                      (set_lastTimerCallback (Some newTime) k)))).
      assert (Hwf1 : WF k1) by (eapply WF_ext; [| | |exact Hwf]; reflexivity).
      simpl. rewrite timer_resolveTimings by auto. simpl.
      eapply active_at_ext; [| |apply (active_at_resolveTimings t' t' Hwf1)];
        reflexivity. }
    split; auto. destruct Hat as [Hnd Hat]. split; auto.
    exists (currentTime_ (_timer (snd (currentTime (Some newTime) k)))).
    split; [apply Z.le_refl | exact Hat].
  - split; [|discriminate].
    split; [apply active_nodup_WF; eapply WF_ext; [| | |exact Hwf]; reflexivity|].
    destruct Hinv as [_ (r' & Hr & Hat)]. exists r'. split; auto.
  - pose proof (WF_Timex_tick time Hwf) as Hwf'.
    unfold Timex_tick in *. destruct (running (_timer k)) eqn:Hrun; simpl.
    + set (k0 := set_timer (mkTimex time true (rate (_timer k))) k) in *.
      assert (Hwf0 : WF k0) by (eapply WF_ext; [| | |exact Hwf]; reflexivity).
      pose proof (WF_tick_resolve time Hwf0) as Hwf1.
      split.
      * split; [now apply active_nodup_WF|].
        apply timerCallback_active; auto; [|simpl; lia].
        destruct Hinv as [_ (r & Hr & Hat)]. exists r. split; [simpl in *; lia|].
        eapply active_at_ext; [| |exact Hat]; reflexivity.
      * intros Hproc. split; [now apply active_nodup_WF|].
        rewrite timerCallback_split. apply rollover_active_at; auto.
        rewrite timer_tick_resolve by auto. simpl.
        now apply tick_resolve_processed.
    + split; [auto | discriminate].
  - split; [|discriminate]. unfold tickImmediately_task.
    split; [apply active_nodup_WF, WF_timerCallback; auto|].
    pose proof (WF_tick_resolve 0 Hwf) as Hwf1.
    destruct Hinv as [_ (r & Hr & Hat)].
    rewrite timerCallback_split.
    destruct (rollover_cases 0 Hwf1) as [->|[H0 Hall]].
    + rewrite timer_tick_resolve by auto.
      destruct (processes 0 k) eqn:E.
      * exists 0. split; auto. now apply tick_resolve_processed.
      * rewrite tick_resolve_batched by auto. eauto.
    + exists 0. rewrite H0. split; [lia | apply Hall].
Qed.

Lemma WF_batched_engine : WF batched_engine.
Proof.
  unfold batched_engine. do 2 apply WF_Timex_tick. apply WF_play.
  apply WF_constructed.
Qed.

Lemma get_singleton {V} k (v : V) c l :
  JsObj.get [(k, v)] c = Some l -> l = v.
Proof. simpl. destruct (String.eqb k c); [now intros [= <-] | discriminate]. Qed.

Lemma active_inv_batched_engine : active_inv batched_engine.
Proof.
  destruct batched_engine_fields as (E & T & K).
  split; [apply active_nodup_WF, WF_batched_engine|].
  exists 0. split; [rewrite T; lia|].
  intros c l p _ Hl Hp. rewrite E in Hl. apply get_singleton in Hl. subst l.
  destruct Hp as [<-|[]]. simpl. lia.
Qed.

Lemma C9_active_invariant_witness :
  active_inv (step (OpTick 40) batched_engine)
  /\ active_inv_as_specified (step (OpTick 40) batched_engine).
Proof.
  destruct (@C9_active_invariant batched_engine (OpTick 40)
              WF_batched_engine active_inv_batched_engine
              ltac:(vm_compute; intro; discriminate)) as [H1 H2].
  split; [exact H1 | apply H2; vm_compute; reflexivity].
Defined.

(** ** Running past the end *)

Lemma chanLog_no_end k lastTime currentTime c :
  filter is_end (chanLog k lastTime currentTime c) = [].
Proof.
  unfold chanLog. destruct (JsObj.get (_channels k) c); auto.
  unfold resolveLog. simpl. rewrite filter_app.
  replace (filter is_end (exitEvents c currentTime (timingsRef c k))) with (@nil Effect).
  - simpl. induction (entering _ _ _) as [|p l IH]; simpl; auto.
  - induction (timingsRef c k) as [|p l IH]; simpl; auto.
    rewrite filter_app, <- IH, app_nil_r. destruct (inside currentTime p); reflexivity.
Qed.

Lemma clearLog_no_end k c : filter is_end (clearLog k c) = [].
Proof.
  unfold clearLog. induction (timingsRef c k) as [|p l IH]; simpl; auto.
Qed.

Lemma flat_map_nil {A B} (p : B -> bool) (g : A -> list B) l :
  (forall x, filter p (g x) = []) -> filter p (flat_map g l) = [].
Proof.
  intros H. rewrite filter_flat_map. induction l as [|a l IH]; simpl; auto.
  now rewrite H.
Qed.

(** The first statement of [_timerCallback] changes the active sets, the
    log and [_lastTimerCallback] only, and emits no [end]. *)
Lemma tick_resolve_frame time k :
  WF k ->
  exists a es last,
    tick_resolve time k = set_lastTimerCallback last (with_active_log a es k)
    /\ filter is_end es = [].
Proof.
  intros Hwf. unfold tick_resolve.
  assert (Hwf1 : WF (emit "timeupdate" (ATime time) k))
    by (eapply WF_ext; [| | |exact Hwf]; reflexivity).
  assert (Hwf0 : WF (set_lastTimerCallback (Some time)
                       (emit "timeupdate" (ATime time) k)))
    by (eapply WF_ext; [| | |exact Hwf]; reflexivity).
  destruct (_lastTimerCallback k) as [last|] eqn:Hlast.
  - destruct (time - last >=? _tickResolution k).
    + rewrite resolveTimings_eq by apply Hwf1. rewrite emit_with.
      rewrite with_active_log_twice. do 3 eexists. split; [reflexivity|].
      simpl. apply flat_map_nil. intros; apply chanLog_no_end.
    + exists (_activeTimingsPerChannel k), [], (Some last). split; auto.
      rewrite with_active_log_id. destruct k; simpl in *. now subst.
  - rewrite resolveTimings_eq by apply Hwf0.
    exists (fold_left
              (fun a c => JsObj.set a c
                 (chanActive (set_lastTimerCallback (Some time)
                                (emit "timeupdate" (ATime time) k)) 0 time c))
              (JsObj.keys (_channels k)) (_activeTimingsPerChannel k)),
           (Emit "timeupdate" (ATime time)
            :: flat_map (chanLog (set_lastTimerCallback (Some time)
                                    (emit "timeupdate" (ATime time) k)) 0 time)
                 (JsObj.keys (_channels k))),
           (Some time).
    split.
    + unfold with_active_log, set_lastTimerCallback, emit, record. simpl.
      now rewrite <- app_assoc.
    + simpl. apply flat_map_nil. intros; apply chanLog_no_end.
Qed.

Lemma fold_Timex_tick_paused ts k :
  running (_timer k) = false ->
  fold_left (fun k' t' => Timex_tick t' k') ts k = k.
Proof.
  intros H. induction ts as [|t' ts IH]; simpl; auto.
  unfold Timex_tick at 2. now rewrite H.
Qed.

(** C6: a tick of the running clock at a time past [totalDuration] runs
    the resolution of the tick (if it is due) and then, in this order:
    [pause] (event, clock paused), the clock set to 0,
    [_lastTimerCallback] unset, for every channel one [exit] and one
    [exit:<channel>] per timing in its active set, all active sets
    emptied, and [end], once.  The clock being paused, no later tick
    reaches the engine: the sequence runs once per crossing. *)
Theorem C6_rollover_once :
  forall k t,
    WF k -> _playing k = true -> running (_timer k) = true ->
    t > _totalDuration k ->
    let k1 := tick_resolve t (set_timer (mkTimex t true (rate (_timer k))) k) in
    let k' := Timex_tick t k in
    log k'
    = log k1
      ++ [Emit "pause" ANone; TimerPause; TimerSet 0]
      ++ flat_map (fun c => clearEvents c (timingsRef c k1))
           (JsObj.keys (_channels k))
      ++ [Emit "end" ANone]
    /\ filter is_end (log k') = filter is_end (log k) ++ [Emit "end" ANone]
    /\ _playing k' = false
    /\ _timer k' = mkTimex 0 false (rate (_timer k))
    /\ _lastTimerCallback k' = None
    /\ (forall c, In c (JsObj.keys (_channels k')) ->
          JsObj.get (_activeTimingsPerChannel k') c = Some [])
    /\ (forall ts, fold_left (fun k'' t' => Timex_tick t' k'') ts k' = k').
Proof.
  intros k t Hwf Hplay Hrun Ht k1 k'.
  set (k0 := set_timer (mkTimex t true (rate (_timer k))) k) in *.
  assert (Hwf0 : WF k0) by (eapply WF_ext; [| | |exact Hwf]; reflexivity).
  destruct (tick_resolve_frame t Hwf0) as (a & es & last & Hk1 & Hes).
  fold k1 in Hk1.
  assert (Hwf1 : WF k1) by (apply WF_tick_resolve; auto).
  assert (Hk' : k' = emit "end" ANone
                       (_clearAllTimings
                          (set_lastTimerCallback None
                             (timer_set 0
                                (timer_pause
                                   (emit "pause" ANone (set_playing false k1))))))).
  { subst k'. unfold Timex_tick. rewrite Hrun. fold k0.
    rewrite timerCallback_split. fold k1. unfold rollover, pause.
    replace (_totalDuration k1) with (_totalDuration k) by (rewrite Hk1; reflexivity).
    replace (_playing k1) with true by (rewrite Hk1; simpl; auto).
    apply Z.gt_lt in Ht. apply Z.gtb_lt in Ht. now rewrite Ht. }
  set (k2 := set_lastTimerCallback None
               (timer_set 0 (timer_pause (emit "pause" ANone (set_playing false k1)))))
    in *.
  assert (Hwf2 : WF k2) by (eapply WF_ext; [| | |exact Hwf1]; reflexivity).
  rewrite clearAllTimings_eq in Hk' by apply Hwf2.
  assert (Hkeys : JsObj.keys (_channels k2) = JsObj.keys (_channels k))
    by (subst k2; simpl; rewrite Hk1; reflexivity).
  rewrite Hkeys in Hk'.
  assert (Hrate : rate (_timer k1) = rate (_timer k))
    by (rewrite Hk1; reflexivity).
  repeat apply conj.
  - rewrite Hk'. simpl. rewrite <- !app_assoc. reflexivity.
  - rewrite Hk'. simpl. rewrite Hk1. simpl.
    rewrite <- !app_assoc, !filter_app, Hes. simpl.
    rewrite flat_map_nil by (intros; apply clearLog_no_end).
    reflexivity.
  - rewrite Hk'. reflexivity.
  - rewrite Hk'. simpl. now rewrite Hrate.
  - rewrite Hk'. reflexivity.
  - intros c. rewrite Hk'. simpl. rewrite (get_fold_set (fun _ => [])).
    replace (_channels k1) with (_channels k) by (rewrite Hk1; reflexivity).
    intros Hc. destruct (in_dec string_dec c (JsObj.keys (_channels k))); tauto.
  - intros ts. apply fold_Timex_tick_paused. rewrite Hk'. reflexivity.
Qed.

Lemma WF_late_engine : WF late_engine.
Proof.
  unfold late_engine. do 2 apply WF_Timex_tick. apply WF_play.
  apply WF_constructed.
Qed.

Lemma C6_rollover_once_witness :
  log (Timex_tick 101 late_engine)
  = log late_engine
    ++ [Emit "pause" ANone; TimerPause; TimerSet 0;
        Emit "exit" (ATiming (mkProjection "c" 90 None (Some 200) None));
        Emit "exit:c" (ATiming (mkProjection "c" 90 None (Some 200) None));
        Emit "end" ANone]
  /\ (forall ts,
        fold_left (fun k'' t' => Timex_tick t' k'') ts (Timex_tick 101 late_engine)
        = Timex_tick 101 late_engine).
Proof.
  destruct (@C6_rollover_once late_engine 101 WF_late_engine
              ltac:(vm_compute; reflexivity) ltac:(vm_compute; reflexivity)
              ltac:(vm_compute; reflexivity))
    as (H1 & _ & _ & _ & _ & _ & H7).
  split; [|exact H7].
  rewrite H1. vm_compute. reflexivity.
Defined.

(** ** Counting the events of one timing *)

Lemma option_eqb_eq {A} (eqb : A -> A -> bool) :
  (forall a b, eqb a b = true <-> a = b) ->
  forall x y, option_eqb eqb x y = true <-> x = y.
Proof.
  intros H [a|] [b|]; simpl; try (split; congruence).
  rewrite H. split; congruence.
Qed.

Lemma projection_eqb_eq p q : projection_eqb p q = true <-> p = q.
Proof.
  unfold projection_eqb. rewrite !andb_true_iff.
  rewrite String.eqb_eq, Z.eqb_eq.
  rewrite (@option_eqb_eq _ _ (@option_eqb_eq _ _ String.eqb_eq)).
  rewrite !(@option_eqb_eq _ _ Z.eqb_eq).
  destruct p, q; simpl. split.
  - intros ((((-> & ->) & ->) & ->) & ->). reflexivity.
  - intros [= -> -> -> -> ->]. auto.
Qed.

Lemma emitted_app ev P l1 l2 :
  emitted ev P (l1 ++ l2) = (emitted ev P l1 + emitted ev P l2)%nat.
Proof. unfold emitted. now rewrite filter_app, length_app. Qed.

Lemma emitted_enterEvents c l P :
  emitted "enter" P (enterEvents c l)
  = List.length (filter (fun q => projection_eqb P (timingFromRawData c q)) l).
Proof.
  unfold emitted. induction l as [|q l IH]; simpl; auto.
  destruct (projection_eqb P (timingFromRawData c q)); simpl; now rewrite IH.
Qed.

Lemma emitted_exit_enterEvents c l P : emitted "exit" P (enterEvents c l) = O.
Proof. unfold emitted. induction l as [|q l IH]; simpl; auto. Qed.

Lemma emitted_exitEvents c t l P :
  emitted "exit" P (exitEvents c t l)
  = List.length
      (filter (fun q => projection_eqb P (exitProjection c q))
         (filter (fun q => negb (inside t q)) l)).
Proof.
  unfold emitted. induction l as [|q l IH]; simpl; auto.
  rewrite filter_app, length_app, IH.
  destruct (inside t q); simpl; auto.
  destruct (projection_eqb P (exitProjection c q)); simpl; auto.
Qed.

Lemma emitted_enter_exitEvents c t l P : emitted "enter" P (exitEvents c t l) = O.
Proof.
  unfold emitted. induction l as [|q l IH]; simpl; auto.
  rewrite filter_app, length_app, IH. destruct (inside t q); reflexivity.
Qed.

Lemma has_true p l :
  has p l = true <-> exists q, In q l /\ oid q = oid p.
Proof.
  unfold has. rewrite existsb_exists. split; intros (q & Hq & E); exists q;
    split; auto; now apply Nat.eqb_eq.
Qed.

Lemma has_false p l :
  has p l = false <-> forall q, In q l -> oid q <> oid p.
Proof.
  split.
  - intros H q Hq E. assert (has p l = true) by (apply has_true; eauto). congruence.
  - intros H. destruct (has p l) eqn:E; auto.
    apply has_true in E as (q & Hq & E). now apply H in Hq.
Qed.

Lemma has_app p l1 l2 : has p (l1 ++ l2) = has p l1 || has p l2.
Proof. unfold has. apply existsb_app. Qed.

Lemma has_filter p f l :
  (forall q, In q l -> oid q = oid p -> q = p) ->
  has p (filter f l) = has p l && f p.
Proof.
  intros Hinj. destruct (has p l) eqn:E; simpl.
  - apply has_true in E as (q & Hq & E). pose proof (Hinj q Hq E) as ->.
    destruct (f p) eqn:Ef.
    + apply has_true. exists p. split; auto. apply filter_In. auto.
    + apply has_false. intros q Hq' E'. apply filter_In in Hq' as [Hq' Hf].
      rewrite (Hinj q Hq' E') in Hf. congruence.
  - apply has_false. intros q Hq. apply filter_In in Hq as [Hq _].
    rewrite has_false in E. auto.
Qed.

Lemma count_oid p l :
  NoDup (map oid l) ->
  List.length (filter (fun q => Nat.eqb (oid q) (oid p)) l)
  = if has p l then 1%nat else O.
Proof.
  induction l as [|q l IH]; simpl; auto.
  intros H. inversion H; subst. specialize (IH H3).
  destruct (Nat.eqb_spec (oid q) (oid p)) as [E|E]; simpl; auto.
  rewrite IH. replace (has p l) with false; auto.
  symmetry. apply has_false. intros q' Hq' E'. apply H2.
  rewrite E, <- E'. now apply in_map.
Qed.

Lemma NoDup_map_app_r {A B} (f : A -> B) l1 l2 :
  NoDup (map f (l1 ++ l2)) -> NoDup (map f l2).
Proof.
  rewrite map_app. induction (map f l1) as [|b l IH]; simpl; auto.
  intros H. inversion H; auto.
Qed.

Lemma NoDup_has_app p l1 l2 :
  NoDup (map oid (l1 ++ l2)) -> has p l1 = true -> has p l2 = false.
Proof.
  intros Hnd H1. apply has_false. intros q Hq E.
  apply has_true in H1 as (q' & Hq' & E').
  rewrite map_app in Hnd.
  induction l1 as [|a l1 IH]; simpl in *; [tauto|].
  inversion Hnd as [|x l Hnotin Hnd']; subst. destruct Hq' as [->|Hq']; auto.
  apply Hnotin. rewrite E', <- E. apply in_or_app. right. now apply in_map.
Qed.

Section OneTiming.

Variables (bound : nat) (tree : IntervalTree) (c : string) (p : Payload).
Hypothesis Htree : tree_ok bound tree.
Hypothesis Hp : In p (map i_payload (intervals tree)).
Hypothesis Huniq :
  forall q, In q (map i_payload (intervals tree)) ->
            p_data q = p_data p -> q = p.

Lemma start_in_tree q :
  In q (map i_payload (intervals tree)) -> p_start q = t_start (p_data q).
Proof.
  intros Hq. apply in_map_iff in Hq as (iv & <- & Hiv).
  destruct Htree as [_ H]. now destruct (H iv Hiv) as (_ & _ & E & _).
Qed.

Lemma enter_proj_oid q :
  In q (map i_payload (intervals tree)) ->
  projection_eqb (timingFromRawData c p) (timingFromRawData c q)
  = Nat.eqb (oid q) (oid p).
Proof.
  intros Hq. apply eq_true_iff_eq. rewrite projection_eqb_eq, Nat.eqb_eq. split.
  - intros E. rewrite (Huniq _ Hq); auto.
    unfold timingFromRawData in E.
    destruct (p_data p) as [s1 e1 d1 x1], (p_data q) as [s2 e2 d2 x2]; simpl in E.
    destruct x1, x2; congruence.
  - intros E. now rewrite (@tree_oid_inj _ _ _ _ Htree Hq Hp E).
Qed.

Lemma exit_proj_oid q :
  In q (map i_payload (intervals tree)) ->
  projection_eqb (exitProjection c p) (exitProjection c q)
  = Nat.eqb (oid q) (oid p).
Proof.
  intros Hq. apply eq_true_iff_eq. rewrite projection_eqb_eq, Nat.eqb_eq. split.
  - intros E. rewrite (Huniq _ Hq); auto.
    unfold exitProjection in E.
    rewrite (start_in_tree _ Hq), (start_in_tree _ Hp) in E.
    destruct (p_data p) as [s1 e1 d1 x1], (p_data q) as [s2 e2 d2 x2]; simpl in E.
    congruence.
  - intros E. now rewrite (@tree_oid_inj _ _ _ _ Htree Hq Hp E).
Qed.

Variable ref : list Payload.
Hypothesis Href : active_ok tree ref.

Lemma ref_oid_inj q : In q ref -> oid q = oid p -> q = p.
Proof.
  intros Hq E. destruct Href as [_ Hincl].
  eapply tree_oid_inj; eauto.
Qed.

Lemma has_resolvedActive lastTime currentTime :
  lastTime <= currentTime ->
  has p (resolvedActive currentTime ref (candidates tree lastTime currentTime))
  = inside currentTime p.
Proof.
  intros Hle.
  pose proof (resolvedActive_ok lastTime currentTime Href) as [Hnd Hincl].
  destruct (inside currentTime p) eqn:E.
  - apply has_true. apply in_map_iff in Hp as (iv & Hiv & Hin).
    assert (Hc : In iv (candidates tree lastTime currentTime)).
    { assert (H : In iv (filter (fun iv => inside currentTime (i_payload iv))
                           (candidates tree lastTime currentTime))).
      { rewrite (candidates_inside Htree Hle). apply filter_In.
        split; auto. now rewrite Hiv. }
      now apply filter_In in H. }
    assert (E' : inside currentTime (i_payload iv) = true) by now rewrite Hiv.
    pose proof (entering_complete currentTime _
                  (filter (inside currentTime) ref) _ Hc E') as H.
    apply in_map_iff in H as (q & Eq & Hq). exists q. split; auto. congruence.
  - apply has_false. intros q Hq Eq.
    pose proof (resolvedActive_inside _ _ _ _ Hq) as Hinside.
    rewrite (@tree_oid_inj _ _ _ _ Htree (Hincl _ Hq) Hp Eq) in Hinside. congruence.
Qed.

Lemma has_kept currentTime :
  has p (filter (inside currentTime) ref) = has p ref && inside currentTime p.
Proof. apply has_filter. apply ref_oid_inj. Qed.

Lemma has_entering lastTime currentTime :
  lastTime <= currentTime ->
  has p (entering currentTime (filter (inside currentTime) ref)
           (candidates tree lastTime currentTime))
  = inside currentTime p && negb (has p ref).
Proof.
  intros Hle. pose proof (has_resolvedActive Hle) as H.
  pose proof (resolvedActive_ok lastTime currentTime Href) as [Hnd _].
  unfold resolvedActive in *. rewrite has_app, has_kept in H.
  destruct (inside currentTime p) eqn:E; simpl.
  - destruct (has p ref) eqn:E'; simpl in *; auto.
    eapply NoDup_has_app; eauto. now rewrite has_kept, E', E.
  - rewrite andb_false_r in H. auto.
Qed.

Lemma enter_count lastTime currentTime :
  lastTime <= currentTime ->
  emitted "enter" (timingFromRawData c p)
    (resolveLog c lastTime currentTime ref (candidates tree lastTime currentTime))
  = if inside currentTime p && negb (has p ref) then 1%nat else O.
Proof.
  intros Hle. unfold resolveLog.
  change (TreeSearch c (queryOf lastTime currentTime) :: ?l)
    with ([TreeSearch c (queryOf lastTime currentTime)] ++ l).
  rewrite !emitted_app, emitted_enter_exitEvents, emitted_enterEvents.
  pose proof (resolvedActive_ok lastTime currentTime Href) as [Hnd Hincl].
  unfold resolvedActive in *.
  rewrite filter_ext_in with (g := fun q => Nat.eqb (oid q) (oid p)).
  - rewrite count_oid by (eapply NoDup_map_app_r; eauto).
    now rewrite has_entering.
  - intros q Hq. apply enter_proj_oid. apply Hincl. apply in_or_app. now right.
Qed.

Lemma exit_count lastTime currentTime :
  emitted "exit" (exitProjection c p)
    (resolveLog c lastTime currentTime ref (candidates tree lastTime currentTime))
  = if has p ref && negb (inside currentTime p) then 1%nat else O.
Proof.
  unfold resolveLog.
  change (TreeSearch c (queryOf lastTime currentTime) :: ?l)
    with ([TreeSearch c (queryOf lastTime currentTime)] ++ l).
  rewrite !emitted_app, emitted_exit_enterEvents, emitted_exitEvents.
  destruct Href as [Hnd Hincl].
  rewrite filter_ext_in with (g := fun q => Nat.eqb (oid q) (oid p)).
  - rewrite count_oid by now apply NoDup_map_filter.
    rewrite has_filter by apply ref_oid_inj. simpl. now rewrite Nat.add_0_r.
  - intros q Hq. apply exit_proj_oid. apply Hincl. now apply filter_In in Hq.
Qed.

End OneTiming.

(** The events of another channel carry another name. *)
Lemma other_channel_count k lastTime currentTime c c' p :
  c' <> c ->
  emitted "enter" (timingFromRawData c p) (chanLog k lastTime currentTime c') = O
  /\ emitted "exit" (exitProjection c p) (chanLog k lastTime currentTime c') = O.
Proof.
  intros Hne. unfold chanLog. destruct (JsObj.get (_channels k) c'); auto.
  unfold resolveLog.
  change (TreeSearch c' (queryOf lastTime currentTime) :: ?l)
    with ([TreeSearch c' (queryOf lastTime currentTime)] ++ l).
  rewrite !emitted_app, emitted_enter_exitEvents, emitted_enterEvents,
    emitted_exit_enterEvents, emitted_exitEvents.
  assert (Hneq : forall P Q, pr_name P = c -> pr_name Q = c' -> projection_eqb P Q = false).
  { intros P Q HP HQ. destruct (projection_eqb P Q) eqn:E; auto.
    apply projection_eqb_eq in E. congruence. }
  assert (Hnil : forall l : list Payload, filter (fun _ => false) l = [])
    by (induction l; auto).
  split.
  - rewrite filter_ext with (g := fun _ => false) by (intros; now apply Hneq).
    now rewrite Hnil.
  - rewrite filter_ext with (g := fun _ => false) by (intros; now apply Hneq).
    now rewrite Hnil.
Qed.

Lemma emitted_flat_map_zero ev P (g : string -> list Effect) cs :
  (forall c', In c' cs -> emitted ev P (g c') = O) ->
  emitted ev P (flat_map g cs) = O.
Proof.
  induction cs as [|c0 cs IH]; intros H; simpl; auto.
  rewrite emitted_app, H, IH; auto.
  - intros c' Hc'. apply H. now right.
  - now left.
Qed.

Lemma emitted_flat_map ev P (g : string -> list Effect) c cs :
  NoDup cs -> In c cs ->
  (forall c', c' <> c -> emitted ev P (g c') = O) ->
  emitted ev P (flat_map g cs) = emitted ev P (g c).
Proof.
  intros Hnd Hin H0. induction cs as [|c0 cs IH]; simpl; [destruct Hin|].
  inversion Hnd as [|x l Hnotin Hnd']; subst. rewrite emitted_app.
  destruct Hin as [->|Hin].
  - rewrite emitted_flat_map_zero; [lia|].
    intros c' Hc'. apply H0. intros ->. auto.
  - rewrite H0, IH; auto. intros ->. auto.
Qed.

(** ** One timing over a sequence of ticks *)

Section OneTimingOverTicks.

Variables (c : string) (p : Payload).

Local Abbreviation settled := (settled_in c p).

Lemma settled_ext k k' :
  _channels k' = _channels k ->
  _activeTimingsPerChannel k' = _activeTimingsPerChannel k ->
  next_oid k' = next_oid k ->
  _tickResolution k' = _tickResolution k ->
  settled k -> settled k'.
Proof.
  intros E1 E2 E3 E4 (Hwf & Hp & Hu & Hres). unfold settled_in, payloads_of in *.
  rewrite E1, E4. split; [eapply WF_ext; eauto|]. auto.
Qed.

(** One resolution over a window that ends at [t]. *)
Lemma resolve_counts k w t :
  settled k -> w <= t ->
  let k1 := _resolveTimings w t k in
  emitted "enter" (timingFromRawData c p) (log k1)
  = (emitted "enter" (timingFromRawData c p) (log k)
     + if inside t p && negb (has p (timingsRef c k)) then 1 else 0)%nat
  /\ emitted "exit" (exitProjection c p) (log k1)
     = (emitted "exit" (exitProjection c p) (log k)
        + if has p (timingsRef c k) && negb (inside t p) then 1 else 0)%nat
  /\ has p (timingsRef c k1) = inside t p
  /\ settled k1.
Proof.
  intros (Hwf & Hp & Hu & Hres) Hle k1. unfold payloads_of in Hp, Hu.
  destruct (JsObj.get (_channels k) c) as [ch|] eqn:Hch; [|destruct Hp].
  pose proof (wf_trees Hwf _ Hch) as Htree.
  pose proof (timingsRef_active_ok _ Hwf Hch) as Href.
  assert (Hin : In c (JsObj.keys (_channels k)))
    by (apply get_In_keys; congruence).
  assert (Hlog : forall lastTime currentTime,
             chanLog k lastTime currentTime c
             = resolveLog c lastTime currentTime (timingsRef c k)
                 (candidates (tree ch) lastTime currentTime))
    by (intros; unfold chanLog; now rewrite Hch).
  split; [|split; [|split]].
  - subst k1. rewrite resolveTimings_eq by apply Hwf. simpl.
    rewrite emitted_app. f_equal.
    rewrite emitted_flat_map with (c := c)
      by first [exact Hin | apply Hwf
               | intros c' Hne; now apply other_channel_count].
    rewrite Hlog. eapply enter_count; eauto.
  - subst k1. rewrite resolveTimings_eq by apply Hwf. simpl.
    rewrite emitted_app. f_equal.
    rewrite emitted_flat_map with (c := c)
      by first [exact Hin | apply Hwf
               | intros c' Hne; now apply other_channel_count].
    rewrite Hlog. eapply exit_count; eauto.
  - subst k1. rewrite (timingsRef_resolveTimings _ _ _ Hwf Hch).
    eapply has_resolvedActive; eauto.
  - subst k1. unfold settled_in, payloads_of.
    split; [now apply WF_resolveTimings|].
    rewrite resolveTimings_eq by apply Hwf. simpl. rewrite Hch. auto.
Qed.

(** One call of the callback that stays within [totalDuration]. *)
Lemma timerCallback_counts k t :
  settled k -> 0 <= t <= _totalDuration k ->
  let k1 := _timerCallback t k in
  settled k1
  /\ _tickResolution k1 = _tickResolution k
  /\ _totalDuration k1 = _totalDuration k
  /\ if processes t k then
       _lastTimerCallback k1 = Some t
       /\ emitted "enter" (timingFromRawData c p) (log k1)
          = (emitted "enter" (timingFromRawData c p) (log k)
             + if inside t p && negb (has p (timingsRef c k)) then 1 else 0)%nat
       /\ emitted "exit" (exitProjection c p) (log k1)
          = (emitted "exit" (exitProjection c p) (log k)
             + if has p (timingsRef c k) && negb (inside t p) then 1 else 0)%nat
       /\ has p (timingsRef c k1) = inside t p
     else k1 = k.
Proof.
  intros Hs Ht k1.
  assert (Hroll : forall k2, _totalDuration k2 = _totalDuration k ->
                             rollover t k2 = k2).
  { intros k2 E. unfold rollover. rewrite E.
    destruct (t >? _totalDuration k) eqn:G; auto. apply Z.gtb_lt in G. lia. }
  subst k1. rewrite timerCallback_split. unfold tick_resolve, processes.
  assert (Hs1 : settled (emit "timeupdate" (ATime t) k))
    by (eapply settled_ext; [| | | |exact Hs]; reflexivity).
  assert (Hs0 : settled (set_lastTimerCallback (Some t)
                           (emit "timeupdate" (ATime t) k)))
    by (eapply settled_ext; [| | | |exact Hs]; reflexivity).
  assert (Hemit : forall ev P,
             emitted ev P (log (emit "timeupdate" (ATime t) k))
             = emitted ev P (log k)).
  { intros. simpl. rewrite emitted_app. unfold emitted at 2. simpl. lia. }
  destruct (_lastTimerCallback k) as [last|] eqn:Hlast.
  - destruct (t - last >=? _tickResolution k) eqn:G.
    + assert (Hle : last + 1 <= t).
      { destruct Hs as (_ & _ & _ & Hres). apply Z.geb_le in G. lia. }
      destruct (resolve_counts Hs1 Hle) as (H1 & H2 & H3 & H4).
      pose proof Hs1 as (Hwf1 & _).
      rewrite Hroll
        by (simpl; now rewrite totalDuration_resolveTimings by apply Hwf1).
      split; [eapply settled_ext; [| | | |exact H4]; reflexivity|].
      split; [simpl; now rewrite resolveTimings_eq by apply Hwf1|].
      split; [simpl; now rewrite resolveTimings_eq by apply Hwf1|].
      split; [reflexivity|].
      split; [simpl; rewrite H1; now rewrite Hemit|].
      split; [simpl; rewrite H2; now rewrite Hemit | exact H3].
    + rewrite Hroll by auto.
      split; [exact Hs|]. split; [reflexivity|]. split; reflexivity.
  - assert (Hle : 0 <= t) by lia.
    destruct (resolve_counts Hs0 Hle) as (H1 & H2 & H3 & H4).
    pose proof Hs0 as (Hwf0 & _).
    rewrite Hroll by (now rewrite totalDuration_resolveTimings by apply Hwf0).
    split; [exact H4|].
    split; [now rewrite resolveTimings_eq by apply Hwf0|].
    split; [now rewrite resolveTimings_eq by apply Hwf0|].
    split; [now rewrite resolveTimings_eq by apply Hwf0|].
    split; [rewrite H1; f_equal; apply Hemit|].
    split; [rewrite H2; f_equal; apply Hemit | exact H3].
Qed.

Lemma processed_cons res last t ts k :
  _tickResolution k = res -> _lastTimerCallback k = last ->
  processed res last (t :: ts)
  = if processes t k then t :: processed res (Some t) ts
    else processed res last ts.
Proof.
  intros <- <-. unfold processes. simpl.
  destruct (_lastTimerCallback k); auto.
Qed.

(** The events of [p] over the ticks [ts] are those that [track]
    counts over the ticks that are resolved. *)
Lemma run_ticks_track ts :
  forall k,
    settled k ->
    Forall (fun t => 0 <= t <= _totalDuration k) ts ->
    forall n x a,
      track p (has p (timingsRef c k))
        (processed (_tickResolution k) (_lastTimerCallback k) ts) = (n, x, a) ->
      emitted "enter" (timingFromRawData c p) (log (run_ticks ts k))
      = (emitted "enter" (timingFromRawData c p) (log k) + n)%nat
      /\ emitted "exit" (exitProjection c p) (log (run_ticks ts k))
         = (emitted "exit" (exitProjection c p) (log k) + x)%nat
      /\ has p (timingsRef c (run_ticks ts k)) = a.
Proof.
  induction ts as [|t ts IH]; intros k Hs Hts n x a Htrack.
  - simpl in *. injection Htrack as <- <- <-. repeat split; lia.
  - inversion Hts as [|? ? Ht Hts']; subst.
    destruct (timerCallback_counts Hs Ht) as (Hs1 & Hres & Htot & Hcase).
    rewrite (@processed_cons _ _ t ts k eq_refl eq_refl) in Htrack.
    unfold run_ticks in *. simpl.
    destruct (processes t k).
    + destruct Hcase as (Hlast & He & Hx & Hhas).
      simpl in Htrack.
      destruct (track p (inside t p)
                  (processed (_tickResolution k) (Some t) ts))
        as [[n' x'] a'] eqn:E.
      injection Htrack as <- <- <-.
      rewrite <- Hres, <- Hlast, <- Hhas in E.
      destruct (IH _ Hs1 ltac:(now rewrite Htot) _ _ _ E) as (I1 & I2 & I3).
      rewrite I1, I2, I3, He, Hx. repeat split.
      * destruct (inside t p && negb (has p (timingsRef c k))); lia.
      * destruct (has p (timingsRef c k) && negb (inside t p)); lia.
    + rewrite Hcase. now apply IH.
Qed.

(** [track] over times in increasing order: one enter at most, then one
    exit at most. *)
Lemma track_none proc :
  (forall t, In t proc -> inside t p = false) ->
  track p false proc = (O, O, false).
Proof.
  induction proc as [|t proc IH]; intros H; simpl; auto.
  rewrite (H t) by now left. rewrite IH by (intros; apply H; now right).
  reflexivity.
Qed.

Lemma track_active proc :
  StronglySorted Z.le proc ->
  (forall t, In t proc -> p_start p <= t) ->
  track p true proc
  = (O, (if forallb (fun t => inside t p) proc then O else 1%nat),
     forallb (fun t => inside t p) proc).
Proof.
  induction proc as [|t proc IH]; intros Hs Hge; simpl; auto.
  inversion Hs as [|? ? Hs' Hall]; subst.
  destruct (inside t p) eqn:E; simpl.
  - rewrite IH; auto. intros; apply Hge; now right.
  - rewrite track_none; auto.
    intros t' Ht'. rewrite Forall_forall in Hall. specialize (Hall t' Ht').
    assert (Hst : p_start p <= t) by (apply Hge; now left).
    destruct (inside t' p) eqn:E'; auto.
    apply inside_bounds in E'.
    assert (inside t p = true) by (apply inside_bounds; lia). congruence.
Qed.

Lemma forallb_last t proc :
  StronglySorted Z.le (t :: proc) ->
  (forall t', In t' (t :: proc) -> p_start p <= t') ->
  forallb (fun t => inside t p) (t :: proc) = inside (last (t :: proc) 0) p.
Proof.
  revert t. induction proc as [|t2 proc IH]; intros t Hs Hge.
  - simpl. now rewrite andb_true_r.
  - inversion Hs as [|? ? Hs' Hall]; subst.
    change (forallb (fun t => inside t p) (t :: t2 :: proc))
      with (inside t p && forallb (fun t => inside t p) (t2 :: proc)).
    change (last (t :: t2 :: proc) 0) with (last (t2 :: proc) 0).
    rewrite IH; auto; [|intros; apply Hge; now right].
    destruct (inside (last (t2 :: proc) 0) p) eqn:E; [|apply andb_false_r].
    rewrite andb_true_r. apply inside_bounds. apply inside_bounds in E.
    assert (Hl : In (last (t2 :: proc) 0) (t2 :: proc)).
    { clear. revert t2. induction proc as [|a l IH]; intros t2; [now left|].
      right. apply IH. }
    rewrite Forall_forall in Hall. specialize (Hall _ Hl).
    specialize (Hge t (or_introl eq_refl)). lia.
Qed.

Lemma track_sorted proc :
  StronglySorted Z.le proc ->
  track p false proc
  = ((if existsb (fun t => inside t p) proc then 1%nat else O),
     (if existsb (fun t => inside t p) proc && negb (inside (last proc 0) p)
      then 1%nat else O),
     existsb (fun t => inside t p) proc && inside (last proc 0) p).
Proof.
  induction proc as [|t proc IH]; intros Hs; auto.
  inversion Hs as [|? ? Hs' Hall]; subst.
  change (track p false (t :: proc))
    with (let '(n, x, a') := track p (inside t p) proc in
          ((if inside t p && negb false then S n else n),
           (if false && negb (inside t p) then S x else x), a')).
  change (existsb (fun t => inside t p) (t :: proc))
    with (inside t p || existsb (fun t => inside t p) proc).
  destruct (inside t p) eqn:E.
  - assert (Hge : forall t', In t' (t :: proc) -> p_start p <= t').
    { intros t' [<-|Ht']; [apply inside_bounds in E; lia|].
      rewrite Forall_forall in Hall. specialize (Hall t' Ht').
      apply inside_bounds in E. lia. }
    rewrite track_active; auto; [|intros; apply Hge; now right].
    rewrite <- (forallb_last Hs Hge). cbn [forallb orb andb negb].
    rewrite E. cbn [forallb orb andb negb].
    destruct (forallb (fun t => inside t p) proc); reflexivity.
  - rewrite IH by auto. cbn [orb andb negb].
    destruct proc as [|t2 proc]; [cbn [existsb last andb]; reflexivity|].
    reflexivity.
Qed.

Lemma processed_In res t ts :
  forall last, In t (processed res last ts) -> In t ts.
Proof.
  induction ts as [|t0 ts IH]; intros last; simpl; auto.
  destruct last as [l|].
  - destruct (t0 - l >=? res); simpl; intros H; [destruct H|]; eauto.
  - simpl. intros [H|H]; eauto.
Qed.

Lemma processed_sorted res ts :
  StronglySorted Z.le ts ->
  forall last, StronglySorted Z.le (processed res last ts).
Proof.
  induction 1 as [|t ts Hs IH Hall]; intros last; simpl; [constructor|].
  assert (Hc : StronglySorted Z.le (t :: processed res (Some t) ts)).
  { constructor; auto. rewrite Forall_forall in *.
    intros t' Ht'. apply Hall. eapply processed_In; eauto. }
  destruct last as [l|]; auto. destruct (t - l >=? res); auto.
Qed.

End OneTimingOverTicks.

(** C1, as stated, fails (scenario A of the specification): the timing
    [5, 10) lies inside the window between the ticks at 0 and 33; the
    clock runs through 5 and 10 and neither [enter] nor [exit] is
    emitted for it. *)
Lemma C1_counterexample :
  let k := run_ticks [0; 33; 66; 99; 132; 165] captions_engine in
  emitted "enter" (timingFromRawData "captions" captions_timing) (log k) = O
  /\ emitted "exit" (exitProjection "captions" captions_timing) (log k) = O
  /\ filter (fun e => negb (is_search e)) (log k)
     = map (fun t => Emit "timeupdate" (ATime t)) [0; 33; 66; 99; 132; 165].
Proof. repeat split; vm_compute; reflexivity. Qed.

(** C1, amended: take a timing [(s, e)] in the index of a channel, the
    only one of that channel with its declaration and not active, and
    ticks at non-decreasing times within [0, totalDuration], the tick
    resolution being positive.  Among the ticks that are resolved (not
    batched away): exactly one [enter] is emitted for the timing if one of
    them falls in [s, e), and none otherwise; exactly one [exit] is
    emitted if one of them falls in [s, e) and the last one does not, and
    none otherwise; the timing is active at the end exactly when the last
    resolved tick falls in [s, e).  As this holds for every prefix of the
    ticks, the [enter] comes with the first resolved tick in [s, e) and
    the [exit] with the first resolved tick after it that is not; nothing
    is emitted twice, and a timing that no resolved tick falls into gets
    neither event. *)
Theorem C1_enter_exit_at_resolved_ticks :
  forall k c p ts,
    settled_in c p k ->
    has p (timingsRef c k) = false ->
    StronglySorted Z.le ts ->
    Forall (fun t => 0 <= t <= _totalDuration k) ts ->
    let proc := processed (_tickResolution k) (_lastTimerCallback k) ts in
    let entered := existsb (fun t => inside t p) proc in
    let k' := run_ticks ts k in
    emitted "enter" (timingFromRawData c p) (log k')
    = (emitted "enter" (timingFromRawData c p) (log k)
       + if entered then 1 else 0)%nat
    /\ emitted "exit" (exitProjection c p) (log k')
       = (emitted "exit" (exitProjection c p) (log k)
          + if entered && negb (inside (last proc 0%Z) p) then 1 else 0)%nat
    /\ has p (timingsRef c k') = entered && inside (last proc 0) p.
Proof.
  intros k c p ts Hs Hhas Hsorted Hts proc entered k'.
  pose proof (track_sorted p (processed_sorted (_tickResolution k) Hsorted
                                (_lastTimerCallback k))) as Htrack.
  rewrite <- Hhas in Htrack.
  exact (run_ticks_track Hs Hts Htrack).
Qed.

Lemma settled_scene_engine : settled_in "captions" scene_timing scene_engine.
Proof.
  assert (E : payloads_of scene_engine "captions" = [scene_timing])
    by (vm_compute; reflexivity).
  split; [apply WF_constructed|]. rewrite E.
  split; [now left|]. split; [|vm_compute; reflexivity].
  intros q [<-|[]] _. reflexivity.
Qed.

Lemma C1_enter_exit_at_resolved_ticks_witness :
  let k' := run_ticks [0; 33; 66; 99] scene_engine in
  emitted "enter" (timingFromRawData "captions" scene_timing) (log k') = 1%nat
  /\ emitted "exit" (exitProjection "captions" scene_timing) (log k') = 1%nat
  /\ has scene_timing (timingsRef "captions" k') = false.
Proof.
  assert (Hsorted : StronglySorted Z.le [0; 33; 66; 99])
    by (repeat constructor; lia).
  assert (Hts : Forall (fun t => 0 <= t <= _totalDuration scene_engine)
                  [0; 33; 66; 99])
    by (repeat constructor; vm_compute; intro; discriminate).
  destruct (@C1_enter_exit_at_resolved_ticks scene_engine "captions" scene_timing
              [0; 33; 66; 99] settled_scene_engine
              ltac:(vm_compute; reflexivity) Hsorted Hts) as (H1 & H2 & H3).
  cbv zeta. rewrite H1, H2, H3. repeat split; vm_compute; reflexivity.
Defined.

(** * Further properties of the code *)

(** ** Well-formedness *)

(** X9: Every operation keeps the engine well formed: channel names are
    distinct, every channel has an array of active timings, the entries of
    a tree carry the bounds of their payload and distinct identities, and
    an active array holds no object twice and only payloads of the tree of
    its channel. *)
Theorem every_operation_keeps_WF :
  forall op k, WF k -> WF (step op k).
Proof.
  intros op k H. destruct op; unfold step.
  - now apply WF_addChannel.
  - now apply WF_addTiming.
  - now apply WF_totalDuration.
  - now apply WF_play.
  - now apply WF_pause.
  - now apply WF_currentTime.
  - now apply WF_playbackRate.
  - now apply WF_Timex_tick.
  - now apply WF_timerCallback.
Qed.

Lemma every_operation_keeps_WF_witness :
  WF (step (OpTotalDuration (Num 20)) grown_engine).
Proof.
  apply every_operation_keeps_WF.
  unfold grown_engine. apply WF_addTiming. apply WF_constructed.
Defined.

(** ** The channel store is silent *)

Lemma silent_refl k : silent k k.
Proof. repeat split. Qed.

Lemma silent_trans k1 k2 k3 : silent k1 k2 -> silent k2 k3 -> silent k1 k3.
Proof.
  unfold silent. intros (A1 & A2 & A3 & A4 & A5) (B1 & B2 & B3 & B4 & B5).
  repeat split; congruence.
Qed.

Lemma silent_forEachM {A} (f : A -> M unit) l :
  (forall a k, silent k (state_of (f a k))) ->
  forall k, silent k (state_of (forEachM f l k)).
Proof.
  intros Hf. induction l as [|a l IH]; intros k; simpl.
  - apply silent_refl.
  - unfold bind. specialize (Hf a k).
    destruct (f a k) as [[[]|e] k']; simpl in *; auto.
    eapply silent_trans; eauto.
Qed.

Lemma silent_addTimingToTree c timing k :
  silent k (state_of (_addTimingToTree c timing k)).
Proof.
  destruct (conflicting timing) eqn:E.
  - rewrite addTimingToTree_conflicting by auto. apply silent_refl.
  - rewrite addTimingToTree_valid by auto. unfold state_of, tree_add_in. simpl.
    destruct (JsObj.get (_channels k) c); repeat split.
Qed.

Lemma silent_addChannel channel k : silent k (state_of (addChannel channel k)).
Proof.
  unfold addChannel.
  destruct (JsObj.get (_channels k) (c_name channel)); [apply silent_refl|].
  eapply silent_trans;
    [|apply silent_forEachM; intros; apply silent_addTimingToTree].
  repeat split.
Qed.

Lemma silent_addTiming c timing k : silent k (state_of (addTiming c timing k)).
Proof.
  unfold addTiming. destruct (JsObj.get (_channels k) c).
  - apply silent_addTimingToTree.
  - apply silent_refl.
Qed.

Lemma silent_totalDuration duration k :
  silent k (state_of (totalDuration duration k)).
Proof.
  destruct duration as [| |d]; simpl; try apply silent_refl.
  unfold bind.
  match goal with |- silent k (state_of (match forEachM ?f ?l ?k1 with _ => _ end)) =>
    assert (Hf : silent k (state_of (forEachM f l k1))) end.
  { eapply silent_trans; [|apply silent_forEachM].
    - repeat split.
    - intros c k'. destruct (JsObj.get (_channels k') c); [|apply silent_refl].
      eapply silent_trans; [|apply silent_addChannel]. repeat split. }
  match goal with |- silent k (state_of (match ?r with _ => _ end)) =>
    destruct r as [[[]|e] k'] end; auto.
Qed.

(** X5: [addChannel], [addTiming] and [totalDuration], whether they return
    or throw, emit no event, make no call to the clock or to a tree
    search, and leave the playing flag, [_lastTimerCallback] and the tick
    resolution as they were; in particular the rebuild of [totalDuration]
    empties the active sets without any [exit] event. *)
Theorem channel_store_is_silent :
  forall k,
    (forall channel, silent k (state_of (addChannel channel k)))
    /\ (forall c timing, silent k (state_of (addTiming c timing k)))
    /\ (forall duration, silent k (state_of (totalDuration duration k))).
Proof.
  intros k. repeat apply conj; intros.
  - apply silent_addChannel.
  - apply silent_addTiming.
  - apply silent_totalDuration.
Qed.

(** ** The clock and the playing flag *)

Lemma resolveTimingsForChannel_frame c lastTime currentTime k :
  exists a es,
    _resolveTimingsForChannel c lastTime currentTime k = with_active_log a es k.
Proof.
  destruct (JsObj.get (_activeTimingsPerChannel k) c) as [ref|] eqn:E1;
    [destruct (JsObj.get (_channels k) c) as [ch|] eqn:E2|].
  - rewrite (resolveTimingsForChannel_eq _ _ _ _ E1 E2). eauto.
  - exists (_activeTimingsPerChannel k), []. rewrite with_active_log_id.
    unfold _resolveTimingsForChannel. now rewrite E1, E2.
  - exists (_activeTimingsPerChannel k), []. rewrite with_active_log_id.
    unfold _resolveTimingsForChannel. now rewrite E1.
Qed.

Lemma fold_frame (f : string -> Kinetophone -> Kinetophone) :
  (forall c k, exists a es, f c k = with_active_log a es k) ->
  forall cs k,
    exists a es, fold_left (fun k' c => f c k') cs k = with_active_log a es k.
Proof.
  intros Hf. induction cs as [|c cs IH]; intros k; simpl.
  - exists (_activeTimingsPerChannel k), []. now rewrite with_active_log_id.
  - destruct (Hf c k) as (a & es & ->).
    destruct (IH (with_active_log a es k)) as (a' & es' & ->).
    rewrite with_active_log_twice. eauto.
Qed.

Lemma resolveTimings_frame lastTime currentTime k :
  exists a es, _resolveTimings lastTime currentTime k = with_active_log a es k.
Proof.
  unfold _resolveTimings.
  apply (fold_frame
           (fun c k' => _resolveTimingsForChannel c lastTime currentTime k')).
  intros; apply resolveTimingsForChannel_frame.
Qed.

Lemma clearAllTimings_frame k :
  exists a es, _clearAllTimings k = with_active_log a es k.
Proof.
  unfold _clearAllTimings.
  apply (fold_frame (fun c k' => _clearAllTimingsForChannel c k')).
  intros c k'. rewrite clearAllTimingsForChannel_eq. eauto.
Qed.

Lemma in_step_pause k : in_step k -> in_step (pause k).
Proof.
  unfold in_step, pause. destruct (_playing k) eqn:E; simpl; auto.
  intros H. now rewrite E.
Qed.

Lemma in_step_timerCallback time k : in_step k -> in_step (_timerCallback time k).
Proof.
  intros H. rewrite timerCallback_split.
  assert (H1 : in_step (tick_resolve time k)).
  { unfold tick_resolve. destruct (_lastTimerCallback k) as [last|].
    - destruct (time - last >=? _tickResolution k); auto.
      destruct (resolveTimings_frame (last + 1) time
                  (emit "timeupdate" (ATime time) k)) as (a & es & E).
      unfold in_step. simpl. rewrite E. exact H.
    - destruct (resolveTimings_frame 0 time
                  (set_lastTimerCallback (Some time)
                     (emit "timeupdate" (ATime time) k))) as (a & es & E).
      unfold in_step. rewrite E. exact H. }
  unfold rollover. destruct (time >? _totalDuration (tick_resolve time k)); auto.
  apply in_step_pause in H1.
  destruct (clearAllTimings_frame
              (set_lastTimerCallback None
                 (timer_set 0 (pause (tick_resolve time k))))) as (a & es & E).
  unfold in_step. simpl. rewrite E. exact H1.
Qed.

(** X8: Every operation keeps the clock and the playing flag in step: the
    clock runs exactly while [playing()] is true.  (The constructor
    starts with both off.) *)
Theorem clock_runs_iff_playing :
  forall op k, in_step k -> in_step (step op k).
Proof.
  intros op k H. destruct op; unfold step.
  - destruct (silent_addChannel channel k) as (_ & E1 & E2 & _).
    unfold in_step. now rewrite E1, E2.
  - destruct (silent_addTiming channelName timing k) as (_ & E1 & E2 & _).
    unfold in_step. now rewrite E1, E2.
  - destruct (silent_totalDuration duration k) as (_ & E1 & E2 & _).
    unfold in_step. now rewrite E1, E2.
  - unfold play. destruct (_playing k); auto. reflexivity.
  - now apply in_step_pause.
  - rewrite currentTime_seek.
    match goal with |- in_step (emit _ _ (_resolveTimings ?a ?b ?k1)) =>
      destruct (resolveTimings_frame a b k1) as (a' & es & E) end.
    unfold in_step. simpl. rewrite E. exact H.
  - exact H.
  - unfold Timex_tick. destruct (running (_timer k)) eqn:Hrun; auto.
    apply in_step_timerCallback. unfold in_step in *. simpl. congruence.
  - now apply in_step_timerCallback.
Qed.

Lemma clock_runs_iff_playing_witness :
  in_step (step (OpTick 101) late_engine).
Proof.
  apply clock_runs_iff_playing. vm_compute. reflexivity.
Defined.

(** ** Play and pause *)

(** X6: [play] on an engine that does not play: when the clock is before
    [totalDuration] it only sets the flag, emits [play] and starts the
    clock.  When the clock is at or past [totalDuration] it first sets the
    clock to 0, unsets [_lastTimerCallback] and clears every active set,
    emitting [exit] and [exit:<channel>] for each timing in it, and only
    then emits [play] and starts the clock.  A second [play] changes
    nothing. *)
Theorem play_restarts_from_the_end :
  forall k,
    WF k -> _playing k = false ->
    let ended := currentTime_ (_timer k) >=? _totalDuration k in
    log (play k)
    = log k
      ++ (if ended
          then TimerSet 0
               :: flat_map (fun c => clearEvents c (timingsRef c k))
                    (JsObj.keys (_channels k))
          else [])
      ++ [Emit "play" ANone; TimerStart]
    /\ _playing (play k) = true
    /\ running (_timer (play k)) = true
    /\ currentTime_ (_timer (play k))
       = (if ended then 0 else currentTime_ (_timer k))
    /\ _lastTimerCallback (play k)
       = (if ended then None else _lastTimerCallback k)
    /\ (forall c, In c (JsObj.keys (_channels k)) ->
          JsObj.get (_activeTimingsPerChannel (play k)) c
          = if ended then Some []
            else JsObj.get (_activeTimingsPerChannel k) c)
    /\ _channels (play k) = _channels k
    /\ play (play k) = play k.
Proof.
  intros k Hwf Hp ended. subst ended.
  assert (E : play k
              = timer_start
                  (emit "play" ANone
                     (set_playing true
                        (if currentTime_ (_timer k) >=? _totalDuration k
                         then _clearAllTimings
                                (set_lastTimerCallback None (timer_set 0 k))
                         else k))))
    by (unfold play; now rewrite Hp).
  rewrite E.
  assert (Hwf' : WF (set_lastTimerCallback None (timer_set 0 k)))
    by (eapply WF_ext; [| | |exact Hwf]; reflexivity).
  destruct (currentTime_ (_timer k) >=? _totalDuration k).
  - rewrite clearAllTimings_eq by apply Hwf'. simpl.
    repeat apply conj; auto.
    + rewrite <- !app_assoc. reflexivity.
    + intros c Hc. rewrite (get_fold_set (fun _ => [])).
      destruct (in_dec string_dec c (JsObj.keys (_channels k))); tauto.
  - simpl. repeat apply conj; auto. now rewrite <- app_assoc.
Qed.

Lemma WF_ended_engine : WF ended_engine.
Proof. unfold ended_engine. apply WF_currentTime. apply WF_constructed. Qed.

Lemma play_restarts_from_the_end_witness :
  log (play ended_engine)
  = log ended_engine
    ++ [TimerSet 0;
        Emit "exit" (ATiming (mkProjection "c" 90 None (Some 200) None));
        Emit "exit:c" (ATiming (mkProjection "c" 90 None (Some 200) None));
        Emit "play" ANone; TimerStart]
  /\ play (play ended_engine) = play ended_engine.
Proof.
  destruct (@play_restarts_from_the_end ended_engine WF_ended_engine
              ltac:(vm_compute; reflexivity))
    as (H1 & _ & _ & _ & _ & _ & _ & H8).
  split; [|exact H8]. rewrite H1. vm_compute. reflexivity.
Defined.

(** ** What a resolution leaves *)

Lemma map_filter_swap {A B} (f : A -> B) (p : B -> bool) l :
  map f (filter (fun a => p (f a)) l) = filter p (map f l).
Proof.
  induction l as [|a l IH]; simpl; auto.
  destruct (p (f a)); simpl; now rewrite IH.
Qed.

Lemma resolvedActive_window bound tree lastTime currentTime ref :
  tree_ok bound tree -> lastTime <= currentTime ->
  resolvedActive currentTime ref (candidates tree lastTime currentTime)
  = resolvedActive currentTime ref (search_point tree currentTime).
Proof.
  intros Htree Hle. unfold resolvedActive. f_equal.
  rewrite (entering_window _ Htree Hle). unfold candidates.
  now rewrite Z.eqb_refl.
Qed.

Lemma containing_point bound tree time :
  tree_ok bound tree ->
  map i_payload
    (filter (fun iv => inside time (i_payload iv)) (search_point tree time))
  = containing tree time.
Proof.
  intros Htree. unfold containing. rewrite <- map_filter_swap. f_equal.
  pose proof (candidates_inside Htree (Z.le_refl time)) as H.
  unfold candidates in H. now rewrite Z.eqb_refl in H.
Qed.

(** X10: After [_resolveTimings(lastTime, currentTime)] with
    [lastTime <= currentTime], the active set of every channel is, up to
    order, the set of the timings of its tree that contain
    [currentTime]: whatever the active sets were before. *)
Theorem resolution_leaves_the_timings_containing_the_time :
  forall k lastTime currentTime c ch,
    WF k -> lastTime <= currentTime ->
    JsObj.get (_channels k) c = Some ch ->
    Permutation
      (timingsRef c (_resolveTimings lastTime currentTime k))
      (containing (tree ch) currentTime).
Proof.
  intros k lastTime currentTime c ch Hwf Hle Hch.
  pose proof (wf_trees Hwf _ Hch) as Htree.
  rewrite (timingsRef_resolveTimings _ _ _ Hwf Hch).
  rewrite (resolvedActive_window _ Htree Hle).
  rewrite <- (containing_point _ Htree).
  eapply resolvedActive_point; eauto. now apply timingsRef_active_ok.
Qed.

Lemma resolution_leaves_the_timings_containing_the_time_witness :
  Permutation
    (timingsRef "c" (_resolveTimings 17 40 batched_engine))
    (containing
       (mkTree (100 # 2)
          [mkInterval 0 5 (mkPayload 0 0 5 (mkTiming 0 (Some 5) None None))])
       40).
Proof.
  apply (@resolution_leaves_the_timings_containing_the_time batched_engine 17 40 "c"
           (mkChannel "c" [mkTiming 0 (Some 5) None None]
              (mkTree (100 # 2)
                 [mkInterval 0 5
                    (mkPayload 0 0 5 (mkTiming 0 (Some 5) None None))]))
           WF_batched_engine ltac:(lia) ltac:(vm_compute; reflexivity)).
Defined.

Lemma entering_nil currentTime ref timingsToAdd :
  (forall iv, In iv timingsToAdd -> inside currentTime (i_payload iv) = true ->
              In (oid (i_payload iv)) (map oid ref)) ->
  entering currentTime ref timingsToAdd = [].
Proof.
  induction timingsToAdd as [|iv rest IH]; intros H; simpl; auto.
  destruct (inside currentTime (i_payload iv)) eqn:E; simpl.
  - destruct (indexOf ref (i_payload iv) =? -1) eqn:E'.
    + apply indexOf_absent in E'. exfalso. apply E'. apply H; simpl; auto.
    + apply IH. intros; apply H; simpl; auto.
  - apply IH. intros; apply H; simpl; auto.
Qed.

Lemma filter_all {A} (p : A -> bool) l :
  (forall a, In a l -> p a = true) -> filter p l = l.
Proof.
  induction l as [|a l IH]; intros H; simpl; auto.
  rewrite H by (now left). f_equal. apply IH. intros; apply H; now right.
Qed.

Lemma exitEvents_nil c t l :
  (forall p, In p l -> inside t p = true) -> exitEvents c t l = [].
Proof.
  induction l as [|p l IH]; intros H; simpl; auto.
  rewrite H by (now left). simpl. apply IH. intros; apply H; now right.
Qed.

Lemma fold_set_same {V} (f : string -> V) cs :
  forall a : JsObj.t V,
    (forall c, In c cs -> JsObj.get a c = Some (f c)) ->
    fold_left (fun a c => JsObj.set a c (f c)) cs a = a.
Proof.
  induction cs as [|c cs IH]; intros a H; simpl; auto.
  rewrite set_same by (apply H; now left). apply IH.
  intros; apply H; now right.
Qed.

(** A resolved channel is settled: resolving it again at the same time
    makes nothing exit and nothing enter. *)
Lemma resolved_again bound tree lastTime currentTime ref :
  tree_ok bound tree -> active_ok tree ref -> lastTime <= currentTime ->
  let ref1 := resolvedActive currentTime ref (candidates tree lastTime currentTime) in
  resolvedActive currentTime ref1 (search_point tree currentTime) = ref1
  /\ entering currentTime (filter (inside currentTime) ref1)
       (search_point tree currentTime) = [].
Proof.
  intros Htree Href Hle ref1.
  assert (Hin : forall p, In p ref1 -> inside currentTime p = true)
    by (intros p Hp; eapply resolvedActive_inside; eauto).
  assert (Hent : entering currentTime (filter (inside currentTime) ref1)
                   (search_point tree currentTime) = []).
  { rewrite (filter_all _ _ Hin). apply entering_nil. intros iv Hiv Hi.
    subst ref1. unfold resolvedActive. apply entering_complete; auto.
    assert (H : In iv (filter (fun iv => inside currentTime (i_payload iv))
                         (candidates tree lastTime currentTime))).
    { rewrite (candidates_inside Htree Hle). apply filter_In. split; auto.
      unfold search_point in Hiv. now apply filter_In in Hiv. }
    now apply filter_In in H. }
  split; auto.
  unfold resolvedActive at 1. rewrite Hent, app_nil_r. now apply filter_all.
Qed.

(** X11: Resolving twice is resolving once: after a resolution at
    [currentTime], a second resolution at the same time (whatever its
    window starts at) emits no [enter] and no [exit] and leaves every
    active set as it is. *)
Theorem second_resolution_is_quiet :
  forall k w w' t,
    WF k -> w <= t -> w' <= t ->
    without_searches (_resolveTimings w' t (_resolveTimings w t k))
    = without_searches (_resolveTimings w t k).
Proof.
  intros k w w' t Hwf Hw Hw'.
  pose proof (WF_resolveTimings w t Hwf) as Hwf1.
  rewrite (@resolveTimings_window _ _ _ Hwf1 Hw').
  set (k1 := _resolveTimings w t k) in *.
  rewrite (@resolveTimings_eq k1 t t) by apply Hwf1.
  assert (Hc : forall c, In c (JsObj.keys (_channels k1)) ->
             JsObj.get (_activeTimingsPerChannel k1) c = Some (chanActive k1 t t c)
             /\ filter (fun e => negb (is_search e)) (chanLog k1 t t c) = []).
  { intros c Hc. pose proof Hc as Hc'. apply get_In_keys in Hc.
    destruct (JsObj.get (_channels k1) c) as [ch1|] eqn:Hch1; [|congruence].
    assert (Hch : JsObj.get (_channels k) c = Some ch1).
    { rewrite <- Hch1. subst k1. rewrite resolveTimings_eq by apply Hwf.
      reflexivity. }
    pose proof (wf_trees Hwf _ Hch) as Htree.
    pose proof (@timingsRef_active_ok _ _ _ Hwf Hch) as Href.
    destruct (@resolved_again _ _ _ _ _ Htree Href Hw) as (R1 & R3).
    pose proof (@timingsRef_resolveTimings w t _ _ _ Hwf Hch) as Eref.
    fold k1 in Eref.
    assert (Hget : JsObj.get (_activeTimingsPerChannel k1) c
                   = Some (timingsRef c k1)).
    { unfold timingsRef.
      destruct (JsObj.get (_activeTimingsPerChannel k1) c) eqn:G; auto.
      exfalso. now apply (wf_total Hwf1 c). }
    unfold chanActive, chanLog, resolveLog, candidates.
    rewrite Hch1, Z.eqb_refl, Eref. split.
    - rewrite R1. now rewrite <- Eref.
    - simpl. rewrite filter_app, R3. simpl. rewrite app_nil_r.
      rewrite exitEvents_all_kept. apply exitEvents_nil.
      intros p Hp. eapply resolvedActive_inside; eauto. }
  unfold without_searches, with_active_log. simpl.
  rewrite fold_set_same by (intros c Hin; now apply Hc).
  rewrite filter_app, filter_flat_map.
  replace (flat_map _ (JsObj.keys (_channels k1))) with (@nil Effect);
    [now rewrite app_nil_r|].
  symmetry. clear -Hc. induction (JsObj.keys (_channels k1)) as [|c cs IH]; auto.
  simpl. rewrite (proj2 (Hc c (or_introl eq_refl))). simpl.
  apply IH. intros; apply Hc; now right.
Qed.

Lemma second_resolution_is_quiet_witness :
  without_searches (_resolveTimings 3 3 (_resolveTimings 0 3 early_engine))
  = without_searches (_resolveTimings 0 3 early_engine).
Proof.
  apply second_resolution_is_quiet; [apply WF_constructed | lia | lia].
Defined.

(** X13: The exit pass and the removal loop of [_resolveTimingsForChannel]:
    the indices collected are strictly decreasing, removing them one by
    one from the array leaves exactly the timings that still contain
    [currentTime], in their order, and the pass emits, in array order, one
    [exit] and one [exit:<channel>] for each timing removed and nothing
    else. *)
Theorem exit_pass_removes_what_it_announces :
  forall channel currentTime ref k,
    let r := exitPass channel currentTime 0 ref [] k in
    fold_left (fun l idx => splice1 idx l) (fst r) ref
    = filter (inside currentTime) ref
    /\ StronglySorted (fun a b => (b < a)%nat) (fst r)
    /\ snd r = with_active_log (_activeTimingsPerChannel k)
                 (exitEvents channel currentTime ref) k
    /\ List.length (exitEvents channel currentTime ref)
       = (2 * (List.length ref
               - List.length (filter (inside currentTime) ref)))%nat.
Proof.
  intros channel currentTime ref k r. subst r. rewrite exitPass_eq. simpl.
  repeat split.
  - apply splice_leftAt.
  - rewrite app_nil_r. apply leftAt_rev_sorted.
  - induction ref as [|p l IH]; auto.
    change (exitEvents channel currentTime (p :: l))
      with ((if inside currentTime p then []
             else [Emit "exit" (ATiming (exitProjection channel p));
                   Emit ("exit:" ++ channel)%string
                     (ATiming (exitProjection channel p))])
            ++ exitEvents channel currentTime l).
    change (filter (inside currentTime) (p :: l))
      with (if inside currentTime p then p :: filter (inside currentTime) l
            else filter (inside currentTime) l).
    rewrite length_app, IH.
    pose proof (filter_length_le (inside currentTime) l) as Hle.
    set (n := List.length (filter (inside currentTime) l)) in *.
    destruct (inside currentTime p); cbn [List.length]; lia.
Qed.

(** ** Queries *)








(** ** Adding timings and channels *)





Lemma set_absent {V} (o : JsObj.t V) k v :
  JsObj.get o k = None -> JsObj.set o k v = o ++ [(k, v)].
Proof.
  induction o as [|[k0 v0] o IH]; simpl; auto.
  destruct (String.eqb k0 k); [discriminate|]. intros H. now rewrite IH.
Qed.


(** The state after a successful [addChannel]. *)
Lemma addChannel_ok channel k :
  JsObj.get (_channels k) (c_name channel) = None ->
  well_declared channel = true ->
  exists k',
    addChannel channel k = (Return tt, k')
    /\ _channels k'
       = _channels k
         ++ [(c_name channel,
              mkChannel (c_name channel) (declared_timings channel)
                (mkTree (_totalDuration k # 2)
                   (normalized (next_oid k) (declared_timings channel))))]
    /\ _activeTimingsPerChannel k'
       = JsObj.set (_activeTimingsPerChannel k) (c_name channel) []
    /\ next_oid k' = (next_oid k + List.length (declared_timings channel))%nat
    /\ _totalDuration k' = _totalDuration k.
Proof.
  intros Hnew Hok. unfold addChannel. rewrite Hnew.
  fold (declared_timings channel).
  erewrite forEach_addTimingToTree; [|simpl; apply get_set_same|exact Hok].
  eexists. split; [reflexivity|]. unfold inserted_in. simpl.
  rewrite set_set, set_absent by auto. repeat split.
Qed.




(** ** The constructor *)




(** ** Rebuilding the channels *)

Lemma rebuild_loop d todo :
  forall done k,
    _channels k = todo ++ done ->
    NoDup (JsObj.keys (todo ++ done)) ->
    (forall c ch, In (c, ch) todo ->
       name ch = c
       /\ forallb (fun timing => negb (conflicting timing)) (timings ch) = true) ->
    _totalDuration k = d ->
    exists k' new,
      forEachM
        (fun channelName k' =>
           match JsObj.get (_channels k') channelName with
           | None => (Throw TypeError, k')
           | Some channel =>
               addChannel
                 (mkChannelDecl (name channel) (Some (timings channel)))
                 (set_channels (JsObj.delete (_channels k') channelName) k')
           end)
        (JsObj.keys todo) k
      = (Return tt, k')
      /\ _channels k' = done ++ new
      /\ Forall2 (rebuilt_as d) todo new
      /\ (forall c, In c (JsObj.keys todo) ->
            JsObj.get (_activeTimingsPerChannel k') c = Some [])
      /\ (forall c, ~ In c (JsObj.keys todo) ->
            JsObj.get (_activeTimingsPerChannel k') c
            = JsObj.get (_activeTimingsPerChannel k) c)
      /\ _totalDuration k' = d.
Proof.
  induction todo as [|[c ch] rest IH]; intros done k Hk Hnd Hok Hd.
  - exists k, []. simpl. rewrite app_nil_r.
    split; [reflexivity|]. split; [exact Hk|]. split; [constructor|].
    split; [intros c []|]. split; auto.
  - simpl. unfold bind. rewrite Hk. simpl. rewrite String.eqb_refl.
    destruct (Hok c ch (or_introl eq_refl)) as [Hname Hvalid].
    simpl in Hnd. inversion Hnd as [|x l Hnotin Hnd']; subst x l.
    set (kd := set_channels (rest ++ done) k).
    assert (Hnew : JsObj.get (_channels kd) (c_name (mkChannelDecl (name ch) (Some (timings ch)))) = None).
    { simpl. rewrite Hname. now apply get_None_keys. }
    destruct (addChannel_ok (mkChannelDecl (name ch) (Some (timings ch))) kd
                Hnew Hvalid) as (k1 & E & Hc1 & Ha1 & _ & Ht1).
    rewrite E. simpl in Hc1, Ha1, Ht1. rewrite Hname in Hc1, Ha1.
    rewrite <- app_assoc in Hc1.
    destruct (IH (done ++ [(c, mkChannel c (timings ch)
                                  (mkTree (_totalDuration k # 2)
                                     (normalized (next_oid k) (timings ch))))])
                k1 Hc1) as (k' & new & E' & Hc' & Hf & A1 & A2 & Ht').
    + unfold JsObj.keys in *. rewrite !map_app in *. simpl.
      rewrite app_assoc. eapply Permutation_NoDup; [|exact Hnd].
      apply Permutation_cons_append.
    + intros c' ch' Hin. apply Hok. now right.
    + congruence.
    + rewrite E'. eexists k', (_ :: new). split; [reflexivity|].
      split; [rewrite Hc'; now rewrite <- app_assoc|].
      assert (Hrest : ~ In c (JsObj.keys rest)).
      { intros Hin. apply Hnotin. unfold JsObj.keys in *. rewrite map_app.
        apply in_or_app. now left. }
      split; [|split; [|split]]; auto.
      * constructor; auto. unfold rebuilt_as, declared. simpl.
        rewrite declared_normalized, Hd. auto.
      * intros c' [<-|Hin]; auto. rewrite A2 by auto. rewrite Ha1.
        apply get_set_same.
      * intros c' Hc''. rewrite A2 by tauto. rewrite Ha1.
        apply get_set_other. intros Heq. apply Hc''. left. congruence.
Qed.

(** X4: [totalDuration(d)] with a number, on channels it can rebuild: it
    returns, stores [d], and replaces every channel, in place and in
    order, by one with the same name and declared timings whose tree is
    made with [d / 2] and holds exactly the declared timings (what
    [addTiming] had added is not among them); every active set is
    emptied, and nothing is emitted for that: the log, the clock, the
    playing flag and [_lastTimerCallback] are untouched. *)
Theorem totalDuration_rebuilds :
  forall k d,
    rebuildable (_channels k) ->
    exists k',
      totalDuration (Num d) k = (Return None, k')
      /\ _totalDuration k' = d
      /\ Forall2 (rebuilt_as d) (_channels k) (_channels k')
      /\ (forall c, In c (JsObj.keys (_channels k)) ->
            JsObj.get (_activeTimingsPerChannel k') c = Some [])
      /\ (forall c, ~ In c (JsObj.keys (_channels k)) ->
            JsObj.get (_activeTimingsPerChannel k') c
            = JsObj.get (_activeTimingsPerChannel k) c)
      /\ silent k k'.
Proof.
  intros k d [Hnd Hok].
  pose proof (silent_totalDuration (Num d) k) as Hs.
  unfold totalDuration in *. unfold bind in *.
  destruct (@rebuild_loop d (_channels k) [] (set_totalDuration d k))
    as (k' & new & E & Hc & Hf & A1 & A2 & Ht); auto.
  - simpl. now rewrite app_nil_r.
  - now rewrite app_nil_r.
  - simpl (JsObj.keys (_channels (set_totalDuration d k))) in *.
    rewrite E in *. exists k'. simpl in Hc. rewrite Hc.
    repeat split; auto; apply Hs.
Qed.

Lemma rebuildable_grown_engine : rebuildable (_channels grown_engine).
Proof.
  assert (E : _channels grown_engine
              = [("c", mkChannel "c" [mkTiming 0 (Some 5) None None]
                         (mkTree (10 # 2)
                            [mkInterval 0 5
                               (mkPayload 0 0 5 (mkTiming 0 (Some 5) None None));
                             mkInterval 2 5
                               (mkPayload 1 2 5 (mkTiming 2 None (Some 3) None))]))])
    by (vm_compute; reflexivity).
  rewrite E. split.
  - repeat constructor. intros [].
  - intros c ch [H|[]]. injection H as <- <-. split; reflexivity.
Qed.

Lemma totalDuration_rebuilds_witness :
  exists k',
    totalDuration (Num 20) grown_engine = (Return None, k')
    /\ _totalDuration k' = 20
    /\ Forall2 (rebuilt_as 20) (_channels grown_engine) (_channels k').
Proof.
  destruct (@totalDuration_rebuilds grown_engine 20 rebuildable_grown_engine)
    as (k' & H1 & H2 & H3 & _).
  exists k'. repeat split; assumption.
Defined.

(** ** Pausing *)

(** X7: [pause] on an engine whose clock is in step with the playing flag:
    if it plays, [pause] is emitted and the clock paused; if not, nothing
    happens.  Either way the engine does not play afterwards, the clock
    time, the active sets and [_lastTimerCallback] are kept, a second
    [pause] changes nothing, and no tick of the clock changes anything
    until the engine is played again. *)
Theorem pause_stops_the_ticks :
  forall k,
    in_step k ->
    log (pause k)
    = log k ++ (if _playing k then [Emit "pause" ANone; TimerPause] else [])
    /\ _playing (pause k) = false
    /\ running (_timer (pause k)) = false
    /\ currentTime_ (_timer (pause k)) = currentTime_ (_timer k)
    /\ _activeTimingsPerChannel (pause k) = _activeTimingsPerChannel k
    /\ _lastTimerCallback (pause k) = _lastTimerCallback k
    /\ pause (pause k) = pause k
    /\ forall ts,
         fold_left (fun k' t => Timex_tick t k') ts (pause k) = pause k.
Proof.
  intros k Hstep. unfold in_step in Hstep.
  assert (Hrun : running (_timer (pause k)) = false).
  { unfold pause. destruct (_playing k) eqn:E; simpl; congruence. }
  assert (Hpl : _playing (pause k) = false).
  { unfold pause. destruct (_playing k) eqn:E; simpl; congruence. }
  repeat apply conj; auto.
  - unfold pause. destruct (_playing k); simpl.
    + now rewrite <- app_assoc.
    + now rewrite app_nil_r.
  - unfold pause. destruct (_playing k); reflexivity.
  - unfold pause. destruct (_playing k); reflexivity.
  - unfold pause. destruct (_playing k); reflexivity.
  - unfold pause at 1. now rewrite Hpl.
  - intros ts. now apply fold_Timex_tick_paused.
Qed.

Lemma pause_stops_the_ticks_witness :
  log (pause late_engine) = log late_engine ++ [Emit "pause" ANone; TimerPause]
  /\ fold_left (fun k' t => Timex_tick t k') [96; 130; 500] (pause late_engine)
     = pause late_engine.
Proof.
  destruct (@pause_stops_the_ticks late_engine ltac:(vm_compute; reflexivity))
    as (H1 & _ & _ & _ & _ & _ & _ & H8).
  split; [exact H1 | apply H8].
Defined.

(** ** One channel, one resolution *)

Lemma exitEvents_leaving channel currentTime ref :
  exitEvents channel currentTime ref
  = leaveEvents channel (leaving currentTime ref).
Proof.
  induction ref as [|p l IH]; auto.
  change (exitEvents channel currentTime (p :: l))
    with ((if inside currentTime p then []
           else [Emit "exit" (ATiming (exitProjection channel p));
                 Emit ("exit:" ++ channel)%string
                   (ATiming (exitProjection channel p))])
          ++ exitEvents channel currentTime l).
  rewrite IH. unfold leaving. cbn [filter].
  destruct (inside currentTime p); reflexivity.
Qed.

(** X12: One call of [_resolveTimingsForChannel] on a channel: it searches
    the tree once, then emits the exits of the timings that
    [currentTime] has left, in the order of the array, then the enters of
    the timings that become active, in the order of the search: every
    exit comes before every enter.  The array then holds the timings that
    stayed, in their order, followed by those that entered; no timing
    both leaves and enters; the active sets of the other channels and the
    channels themselves are untouched. *)
Theorem one_channel_exits_then_enters :
  forall k channel lastTime currentTime ref ch,
    JsObj.get (_activeTimingsPerChannel k) channel = Some ref ->
    JsObj.get (_channels k) channel = Some ch ->
    let k' := _resolveTimingsForChannel channel lastTime currentTime k in
    let stay := filter (inside currentTime) ref in
    let enter :=
      entering currentTime stay (candidates (tree ch) lastTime currentTime) in
    log k'
    = log k
      ++ [TreeSearch channel (queryOf lastTime currentTime)]
      ++ leaveEvents channel (leaving currentTime ref)
      ++ enterEvents channel enter
    /\ JsObj.get (_activeTimingsPerChannel k') channel = Some (stay ++ enter)
    /\ (forall p, In p enter ->
          inside currentTime p = true
          /\ ~ In p (leaving currentTime ref)
          /\ ~ In (oid p) (map oid stay))
    /\ (forall c, c <> channel ->
          JsObj.get (_activeTimingsPerChannel k') c
          = JsObj.get (_activeTimingsPerChannel k) c)
    /\ _channels k' = _channels k.
Proof.
  intros k channel lastTime currentTime ref ch Href Hch k' stay enter.
  subst k'. rewrite (resolveTimingsForChannel_eq _ _ _ _ Href Hch).
  unfold resolveLog, resolvedActive. fold stay. fold enter.
  rewrite exitEvents_leaving. simpl.
  split; [reflexivity|]. split; [apply get_set_same|].
  split; [|split; [intros c Hne; now apply get_set_other | reflexivity]].
  intros p H. split; [apply (entering_inside _ _ _ _ H)|]. split.
  - intros Hl. unfold leaving in Hl. apply filter_In in Hl as [_ Hl].
    destruct (entering_inside _ _ _ _ H) as [_ Hin]. rewrite Hin in Hl.
    discriminate.
  - revert H. subst enter. generalize stay.
    induction (candidates (tree ch) lastTime currentTime) as [|iv l IH];
      intros st; simpl; [tauto|].
    destruct (inside currentTime (i_payload iv) && (indexOf st (i_payload iv) =? -1))
      eqn:E.
    + intros [<-|Hin].
      * apply andb_true_iff in E as [_ E]. now apply indexOf_absent in E.
      * apply IH in Hin. rewrite map_app, in_app_iff in Hin. tauto.
    + apply IH.
Qed.

Lemma one_channel_exits_then_enters_witness :
  log (_resolveTimingsForChannel "c" 17 95 batched_engine)
  = log batched_engine
    ++ [TreeSearch "c" (QRange 17 95);
        Emit "exit" (ATiming (mkProjection "c" 0 (Some None) (Some 5) None));
        Emit "exit:c" (ATiming (mkProjection "c" 0 (Some None) (Some 5) None))].
Proof.
  destruct (@one_channel_exits_then_enters batched_engine "c" 17 95
              [mkPayload 0 0 5 (mkTiming 0 (Some 5) None None)]
              (mkChannel "c" [mkTiming 0 (Some 5) None None]
                 (mkTree (100 # 2)
                    [mkInterval 0 5
                       (mkPayload 0 0 5 (mkTiming 0 (Some 5) None None))]))
              ltac:(vm_compute; reflexivity) ltac:(vm_compute; reflexivity))
    as (H & _).
  rewrite H. vm_compute. reflexivity.
Defined.
